(** * jsonstring-formatter: the resolver and the line-correspondence builder

    A shallow embedding of [src/App.jsx]: [parseNestedJson], the recursive
    unwrapping of JSON-encoded strings, [buildLineMapping], the heuristic
    that relates the lines of the resolved rendering to the lines of the
    original text, and [handleParse], the state update run on every new
    input.  The builtins these functions call ([JSON.parse],
    [String.prototype.split], [trim], [match], [Object.entries],
    [Object.fromEntries]) are modelled after ECMA-262; the [Map] the builder
    fills is a finite map from line numbers to line numbers. *)

From Stdlib Require Import ZArith NArith List Bool Lia String Ascii.
From Stdlib Require Import Floats.SpecFloat.
From stdpp Require Import base option list gmap.

Local Open Scope N_scope.
Local Open Scope list_scope.

(** ** JavaScript strings

    A JavaScript string is a sequence of UTF-16 code units. *)

Abbreviation jsstring := (list N) (only parsing).

Module Ch.
Definition TAB : N := 9.
Definition LF : N := 10.
Definition CR : N := 13.
Definition SPACE : N := 32.
Definition QUOTE : N := 34.
Definition PLUS : N := 43.
Definition COMMA : N := 44.
Definition MINUS : N := 45.
Definition DOT : N := 46.
Definition SLASH : N := 47.
Definition ZERO : N := 48.
Definition NINE : N := 57.
Definition COLON : N := 58.
Definition LBRACKET : N := 91.
Definition BACKSLASH : N := 92.
Definition RBRACKET : N := 93.
Definition LBRACE : N := 123.
Definition RBRACE : N := 125.
End Ch.

(** Literals of this development are written in ASCII, with an apostrophe
    standing for the double quote (code unit 34). *)
Definition js_unit (a : ascii) : N :=
  if Ascii.eqb a "'"%char then Ch.QUOTE else N_of_ascii a.

Definition js (s : string) : list N := map js_unit (list_ascii_of_string s).

(** ** JSON values *)

Unset Elimination Schemes.
Inductive JsonValue : Type :=
| JNull
| JBoolean (b : bool)
| JNumber (n : spec_float)
| JString (s : list N)
| JArray (elems : list JsonValue)
| JObject (props : list (list N * JsonValue)).
Set Elimination Schemes.

Section JsonValue_induction.
Variable P : JsonValue -> Prop.
Hypothesis Hnull : P JNull.
Hypothesis Hbool : forall b, P (JBoolean b).
Hypothesis Hnum : forall n, P (JNumber n).
Hypothesis Hstr : forall s, P (JString s).
Hypothesis Harr : forall l, Forall P l -> P (JArray l).
Hypothesis Hobj : forall o, Forall (fun kv => P (snd kv)) o -> P (JObject o).

Fixpoint JsonValue_ind (v : JsonValue) : P v :=
  match v with
  | JNull => Hnull
  | JBoolean b => Hbool b
  | JNumber n => Hnum n
  | JString s => Hstr s
  | JArray l =>
      Harr l ((fix go (l : list JsonValue) : Forall P l :=
                 match l with
                 | [] => Forall_nil_2 P
                 | x :: r => Forall_cons_2 P x r (JsonValue_ind x) (go r)
                 end) l)
  | JObject o =>
      Hobj o ((fix go (o : list (list N * JsonValue))
                : Forall (fun kv => P (snd kv)) o :=
                 match o with
                 | [] => Forall_nil_2 _
                 | kv :: r =>
                     Forall_cons_2 (fun kv => P (snd kv)) kv r
                       (JsonValue_ind (snd kv)) (go r)
                 end) o)
  end.
End JsonValue_induction.

(** ** Exceptions

    [JSON.parse] throws a [SyntaxError]; exhausting the call stack throws a
    [RangeError].  A computation either completes normally or throws. *)

Inductive Error : Type := SyntaxError | RangeError.

Inductive completion (A : Type) : Type :=
| Normal (a : A)
| Throw (e : Error).
Arguments Normal {A} a.
Arguments Throw {A} e.

Definition bind {A B} (c : completion A) (k : A -> completion B) : completion B :=
  match c with
  | Normal a => k a
  | Throw e => Throw e
  end.

(** [try { c } catch { h }] *)
Definition try_catch {A} (c : completion A) (h : Error -> completion A) : completion A :=
  match c with
  | Normal a => Normal a
  | Throw e => h e
  end.

Notation "'let*' x := c 'in' k" := (bind c (fun x => k))
  (at level 10, x name, c at level 100, k at level 200).

(** [Array.prototype.map] with a callback that may throw: the elements are
    visited left to right and the first exception escapes. *)
Fixpoint Array_map {A B} (f : A -> completion B) (l : list A) : completion (list B) :=
  match l with
  | [] => Normal []
  | x :: r => let* y := f x in let* ys := Array_map f r in Normal (y :: ys)
  end.

(** ** Objects

    An ordinary object is kept as the list of its own properties in the
    order [OrdinaryOwnPropertyKeys] enumerates them: the array-index keys
    first, in ascending numeric order, then the other keys in the order
    they were created.  [Object.entries] reads that list. *)

Definition is_digit (c : N) : bool := (Ch.ZERO <=? c) && (c <=? Ch.NINE).

Definition digits_value (ds : list N) : N :=
  fold_left (fun acc d => 10 * acc + (d - Ch.ZERO)) ds 0.

(** A key is an array index when it is the canonical decimal form of an
    integer below 2^32 - 1. *)
Definition array_index (k : list N) : option N :=
  match k with
  | [] => None
  | c :: r =>
      if forallb is_digit k then
        if (c =? Ch.ZERO) && negb (bool_decide (r = [])) then None
        else if digits_value k <? 4294967295 then Some (digits_value k)
        else None
      else None
  end.

Definition has_key (k : list N) (o : list (list N * JsonValue)) : bool :=
  existsb (fun kv => bool_decide (fst kv = k)) o.

Fixpoint set_value (k : list N) (v : JsonValue) (o : list (list N * JsonValue))
  : list (list N * JsonValue) :=
  match o with
  | [] => []
  | kv :: r =>
      if bool_decide (fst kv = k) then (k, v) :: r
      else kv :: set_value k v r
  end.

Fixpoint insert_index (i : N) (k : list N) (v : JsonValue)
  (o : list (list N * JsonValue)) : list (list N * JsonValue) :=
  match o with
  | [] => [(k, v)]
  | kv :: r =>
      match array_index (fst kv) with
      | Some j => if j <? i then kv :: insert_index i k v r else (k, v) :: o
      | None => (k, v) :: o
      end
  end.

(** [CreateDataProperty(o, k, v)]: an existing property keeps its place and
    takes the new value; a new one is enumerated after the array indices
    below it, or last when its key is not an array index. *)
Definition CreateDataProperty (o : list (list N * JsonValue)) (k : list N)
  (v : JsonValue) : list (list N * JsonValue) :=
  if has_key k o then set_value k v o
  else
    match array_index k with
    | Some i => insert_index i k v o
    | None => o ++ [(k, v)]
    end.

Definition Object_entries (o : list (list N * JsonValue)) : list (list N * JsonValue) := o.

Definition Object_fromEntries (entries : list (list N * JsonValue))
  : list (list N * JsonValue) :=
  fold_left (fun o kv => CreateDataProperty o (fst kv) (snd kv)) entries [].

(** ** [JSON.parse]

    The JSON grammar of ECMA-404, as [JSON.parse] reads it: insignificant
    white space is tab, line feed, carriage return and space; a string may
    hold any code unit from U+0020 up except the quote and the backslash,
    and, after a backslash, the quote, the backslash, the slash, one of
    [b f n r t], or [u] and four hexadecimal digits; a number is an
    optional minus sign, an integer part (a lone zero, or a nonzero digit
    and more digits), an optional fraction (a dot and at least one digit)
    and an optional exponent ([e] or [E], an optional sign, at least one
    digit). *)

Module JSON.

Definition is_ws (c : N) : bool :=
  (c =? Ch.TAB) || (c =? Ch.LF) || (c =? Ch.CR) || (c =? Ch.SPACE).

Fixpoint skip_ws (s : list N) : list N :=
  match s with
  | c :: r => if is_ws c then skip_ws r else s
  | [] => []
  end.

Definition hex_val (c : N) : option N :=
  if is_digit c then Some (c - 48)
  else if (65 <=? c) && (c <=? 70) then Some (c - 55)
  else if (97 <=? c) && (c <=? 102) then Some (c - 87)
  else None.

(** The code unit a single-character escape stands for. *)
Definition escape (c : N) : option N :=
  if c =? Ch.QUOTE then Some Ch.QUOTE
  else if c =? Ch.BACKSLASH then Some Ch.BACKSLASH
  else if c =? Ch.SLASH then Some Ch.SLASH
  else if c =? 98 then Some 8
  else if c =? 102 then Some 12
  else if c =? 110 then Some Ch.LF
  else if c =? 114 then Some Ch.CR
  else if c =? 116 then Some Ch.TAB
  else None.

(** The body of a string literal, after its opening quote: the decoded
    string and the text after the closing quote. *)
Fixpoint string_chars (s : list N) : option (list N * list N) :=
  match s with
  | [] => None
  | c :: r =>
      if c =? Ch.QUOTE then Some ([], r)
      else if c =? Ch.BACKSLASH then
        match r with
        | [] => None
        | e :: r1 =>
            if e =? 117 then
              match r1 with
              | h3 :: h2 :: h1 :: h0 :: r2 =>
                  match hex_val h3, hex_val h2, hex_val h1, hex_val h0 with
                  | Some a, Some b, Some c, Some d =>
                      match string_chars r2 with
                      | Some (t, rest) => Some ((a * 4096 + b * 256 + c * 16 + d) :: t, rest)
                      | None => None
                      end
                  | _, _, _, _ => None
                  end
              | _ => None
              end
            else
              match escape e with
              | Some u =>
                  match string_chars r1 with
                  | Some (t, rest) => Some (u :: t, rest)
                  | None => None
                  end
              | None => None
              end
        end
      else if c <? Ch.SPACE then None
      else
        match string_chars r with
        | Some (t, rest) => Some (c :: t, rest)
        | None => None
        end
  end.

(** The longest run of decimal digits at the head of [s]. *)
Fixpoint digits (s : list N) : list N * list N :=
  match s with
  | c :: r =>
      if is_digit c then let '(ds, rest) := digits r in (c :: ds, rest)
      else ([], s)
  | [] => ([], [])
  end.

Definition int_part (s : list N) : option (list N * list N) :=
  match s with
  | c :: r =>
      if c =? Ch.ZERO then Some ([c], r)
      else if is_digit c then let '(ds, rest) := digits r in Some (c :: ds, rest)
      else None
  | [] => None
  end.

Definition frac_part (s : list N) : option (list N * list N) :=
  match s with
  | c :: r =>
      if c =? Ch.DOT then
        match digits r with
        | ([], _) => None
        | (ds, rest) => Some (ds, rest)
        end
      else Some ([], s)
  | [] => Some ([], [])
  end.

Definition exp_sign (s : list N) : bool * list N :=
  match s with
  | c :: r =>
      if c =? Ch.PLUS then (false, r)
      else if c =? Ch.MINUS then (true, r)
      else (false, s)
  | [] => (false, [])
  end.

Definition exp_part (s : list N) : option (Z * list N) :=
  match s with
  | c :: r =>
      if (c =? 101) || (c =? 69) then
        let '(neg, r1) := exp_sign r in
        match digits r1 with
        | ([], _) => None
        | (ds, rest) =>
            let e := Z.of_N (digits_value ds) in
            Some (if neg then (- e)%Z else e, rest)
        end
      else Some (0%Z, s)
  | [] => Some (0%Z, [])
  end.

Definition pow10 (e : Z) : positive :=
  match e with
  | Zpos k => Pos.pow 10 k
  | _ => 1%positive
  end.

(** The Number value of a numeric literal with significand digits
    [int ++ frac] and decimal exponent [e]: the binary64 float nearest to
    the literal's mathematical value, ties to even. *)
Definition StringToNumber (neg : bool) (int frac : list N) (e : Z) : spec_float :=
  let e10 := (e - Z.of_nat (length frac))%Z in
  match digits_value (int ++ frac) with
  | N0 => S754_zero neg
  | Npos m =>
      SFdiv 53 1024
        (S754_finite neg (m * pow10 e10) 0)
        (S754_finite false (pow10 (- e10)) 0)
  end.

Definition number (s : list N) : option (spec_float * list N) :=
  let '(neg, s1) :=
    match s with
    | c :: r => if c =? Ch.MINUS then (true, r) else (false, s)
    | [] => (false, [])
    end in
  match int_part s1 with
  | None => None
  | Some (i, s2) =>
      match frac_part s2 with
      | None => None
      | Some (f, s3) =>
          match exp_part s3 with
          | None => None
          | Some (e, s4) => Some (StringToNumber neg i f e, s4)
          end
      end
  end.

(** [strip w s] is the text after the word [w] when [s] starts with it. *)
Fixpoint strip (w s : list N) : option (list N) :=
  match w, s with
  | [], _ => Some s
  | a :: w', b :: s' => if a =? b then strip w' s' else None
  | _ :: _, [] => None
  end.

(** Result of a parsing function that recurses on a fuel: a value and the
    text left, a syntax error, or fuel exhausted. *)
Inductive presult (A : Type) : Type :=
| POk (a : A) (rest : list N)
| PFail
| PFuel.
Arguments POk {A} a rest.
Arguments PFail {A}.
Arguments PFuel {A}.

Section Containers.
(** The parser of one value, on a text that starts at the value. *)
Variable value : list N -> presult JsonValue.

(** The elements of a non-empty array, up to its closing bracket. *)
Fixpoint elements (fuel : nat) (s : list N) : presult (list JsonValue) :=
  match fuel with
  | O => PFuel
  | S fuel =>
      match value (skip_ws s) with
      | POk v r =>
          match skip_ws r with
          | c :: r' =>
              if c =? Ch.COMMA then
                match elements fuel r' with
                | POk vs r'' => POk (v :: vs) r''
                | PFail => PFail
                | PFuel => PFuel
                end
              else if c =? Ch.RBRACKET then POk [v] r'
              else PFail
          | [] => PFail
          end
      | PFail => PFail
      | PFuel => PFuel
      end
  end.

(** The members of a non-empty object, up to its closing brace, in the
    order of the text. *)
Fixpoint members (fuel : nat) (s : list N) : presult (list (list N * JsonValue)) :=
  match fuel with
  | O => PFuel
  | S fuel =>
      match skip_ws s with
      | q :: r0 =>
          if q =? Ch.QUOTE then
            match string_chars r0 with
            | Some (k, r1) =>
                match skip_ws r1 with
                | c :: r2 =>
                    if c =? Ch.COLON then
                      match value (skip_ws r2) with
                      | POk v r3 =>
                          match skip_ws r3 with
                          | d :: r4 =>
                              if d =? Ch.COMMA then
                                match members fuel r4 with
                                | POk ms r5 => POk ((k, v) :: ms) r5
                                | PFail => PFail
                                | PFuel => PFuel
                                end
                              else if d =? Ch.RBRACE then POk [(k, v)] r4
                              else PFail
                          | [] => PFail
                          end
                      | PFail => PFail
                      | PFuel => PFuel
                      end
                    else PFail
                | [] => PFail
                end
            | None => PFail
            end
          else PFail
      | [] => PFail
      end
  end.
End Containers.

Definition keyword (w : list N) (v : JsonValue) (s : list N) : presult JsonValue :=
  match strip w s with
  | Some r => POk v r
  | None => PFail
  end.

(** One JSON value at the head of [s].  The properties of an object are
    created in the order of the text, so a repeated key keeps its first
    place and its last value. *)
Fixpoint value (fuel : nat) (s : list N) : presult JsonValue :=
  match fuel with
  | O => PFuel
  | S fuel =>
      match s with
      | [] => PFail
      | c :: r =>
          if c =? Ch.LBRACE then
            match skip_ws r with
            | c' :: r' =>
                if c' =? Ch.RBRACE then POk (JObject []) r'
                else
                  match members (value fuel) fuel r with
                  | POk ms r'' => POk (JObject (Object_fromEntries ms)) r''
                  | PFail => PFail
                  | PFuel => PFuel
                  end
            | [] => PFail
            end
          else if c =? Ch.LBRACKET then
            match skip_ws r with
            | c' :: r' =>
                if c' =? Ch.RBRACKET then POk (JArray []) r'
                else
                  match elements (value fuel) fuel r with
                  | POk vs r'' => POk (JArray vs) r''
                  | PFail => PFail
                  | PFuel => PFuel
                  end
            | [] => PFail
            end
          else if c =? Ch.QUOTE then
            match string_chars r with
            | Some (t, r') => POk (JString t) r'
            | None => PFail
            end
          else if c =? 116 then keyword (js "true") (JBoolean true) s
          else if c =? 102 then keyword (js "false") (JBoolean false) s
          else if c =? 110 then keyword (js "null") JNull s
          else
            match number s with
            | Some (n, r') => POk (JNumber n) r'
            | None => PFail
            end
      end
  end.

(** [JSON.parse(text)]: one value, with white space allowed around it, and
    nothing else; a [SyntaxError] otherwise. *)
Definition parse (text : list N) : completion JsonValue :=
  match value (S (length text)) (skip_ws text) with
  | POk v r =>
      match skip_ws r with
      | [] => Normal v
      | _ :: _ => Throw SyntaxError
      end
  | _ => Throw SyntaxError
  end.

End JSON.

(** ** The resolver

    [parseNestedJson] is a recursive function of the source; each of its
    calls takes a frame of the engine's call stack, and a call made when no
    frame is left throws a [RangeError].  [stack] is the number of frames
    available to the call. *)

Fixpoint parseNestedJson (stack : nat) (obj : JsonValue) : completion JsonValue :=
  match stack with
  | O => Throw RangeError
  | S stack =>
      match obj with
      | JString s =>
          try_catch
            (let* v := JSON.parse s in parseNestedJson stack v)
            (fun _ => Normal obj)
      | JArray l =>
          let* l' := Array_map (parseNestedJson stack) l in
          Normal (JArray l')
      | JObject o =>
          let* entries :=
            Array_map
              (fun kv => let* v := parseNestedJson stack (snd kv) in Normal (fst kv, v))
              (Object_entries o) in
          Normal (JObject (Object_fromEntries entries))
      | JNull | JBoolean _ | JNumber _ => Normal obj
      end
  end.

(** A lower bound on the length of any JSON text of a value. *)
Fixpoint size (v : JsonValue) : nat :=
  match v with
  | JString s => S (length s)
  | JArray l => S (list_sum (map size l))
  | JObject o => S (list_sum (map (fun kv => size (snd kv)) o))
  | JNull | JBoolean _ | JNumber _ => 1
  end.

(** [resolve] of the specification: [parseNestedJson] run with a call stack
    deeper than the value is large. *)
Definition resolve (v : JsonValue) : JsonValue :=
  match parseNestedJson (S (size v)) v with
  | Normal r => r
  | Throw _ => v
  end.

(** ** The line-correspondence builder *)

(** [s.split('\n')] *)
Fixpoint split_lines (s : list N) : list (list N) :=
  match s with
  | [] => [[]]
  | c :: r =>
      if c =? Ch.LF then [] :: split_lines r
      else
        match split_lines r with
        | l :: ls => (c :: l) :: ls
        | [] => [[c]]
        end
  end.

(** White space and line terminators, the code units [trim] strips. *)
Definition is_trim_space (c : N) : bool :=
  ((9 <=? c) && (c <=? 13)) || (c =? 32) || (c =? 160) || (c =? 5760)
  || ((8192 <=? c) && (c <=? 8202)) || (c =? 8232) || (c =? 8233)
  || (c =? 8239) || (c =? 8287) || (c =? 12288) || (c =? 65279).

Fixpoint trim_start (s : list N) : list N :=
  match s with
  | c :: r => if is_trim_space c then trim_start r else s
  | [] => []
  end.

Definition trim (s : list N) : list N := rev (trim_start (rev (trim_start s))).

(** The longest run of code units other than the quote at the head of [s]. *)
Fixpoint not_quotes (s : list N) : list N * list N :=
  match s with
  | c :: r =>
      if c =? Ch.QUOTE then ([], s)
      else let '(k, rest) := not_quotes r in (c :: k, rest)
  | [] => ([], [])
  end.

(** [s.match(/QUOTE([^QUOTE]+)QUOTE:/)], reduced to its capture group: the
    leftmost place of [s] with a quote, one or more code units that are not
    quotes, a quote and a colon; [None] stands for [null]. *)
Fixpoint match_key (s : list N) : option (list N) :=
  match s with
  | [] => None
  | c :: r =>
      if c =? Ch.QUOTE then
        match not_quotes r with
        | ((_ :: _) as k, q :: c' :: _) =>
            if (q =? Ch.QUOTE) && (c' =? Ch.COLON) then Some k else match_key r
        | _ => match_key r
        end
      else match_key r
  end.

(** The inner loop, entered at [i] with [n] iterations left before [i]
    reaches [origIdx + 20]: the index of the first original line whose key
    is the key of the resolved line. *)
Fixpoint find_key (origLines : list (list N)) (parsedKey : option (list N))
  (origIdx : nat) (n : nat) (i : nat) : option nat :=
  match n with
  | O => None
  | S n =>
      if ((i <? length origLines) && (i <? origIdx + 20))%nat then
        let origLine := trim (nth i origLines []) in
        let origKey := match_key origLine in
        match parsedKey, origKey with
        | Some pk, Some ok =>
            if bool_decide (pk = ok) then Some i
            else find_key origLines parsedKey origIdx n (S i)
        | _, _ => find_key origLines parsedKey origIdx n (S i)
        end
      else None
  end.

(** The state of the outer loop: the map built so far and the cursor
    [origIdx]. *)
Definition loop_body (origLines : list (list N)) (st : gmap nat nat * nat)
  (parsedIdx : nat) (line : list N) : gmap nat nat * nat :=
  let '(mapping, origIdx) := st in
  let parsedLine := trim line in
  let parsedKey := match_key parsedLine in
  match find_key origLines parsedKey origIdx 20 origIdx with
  | Some i => (<[S parsedIdx := S i]> mapping, S i)
  | None => (mapping, origIdx)
  end.

Fixpoint loop (origLines : list (list N)) (parsedLines : list (list N))
  (parsedIdx : nat) (st : gmap nat nat * nat) : gmap nat nat * nat :=
  match parsedLines with
  | [] => st
  | line :: rest =>
      loop origLines rest (S parsedIdx) (loop_body origLines st parsedIdx line)
  end.

Definition buildLineMapping (originalStr parsedStr : list N) : gmap nat nat :=
  let origLines := split_lines originalStr in
  let parsedLines := split_lines parsedStr in
  fst (loop origLines parsedLines 0%nat (∅, 0%nat)).

(** ** The application state *)

Record AppState : Type := { parsed : JsonValue; error : list N }.

Section App.
(** The text of an exception, [e.message], is the engine's. *)
Variable message : Error -> list N.
Variable stack : nat.

Definition handleParse (input : list N) (st : AppState) : AppState :=
  match (let* obj := JSON.parse input in parseNestedJson stack obj) with
  | Normal r => {| parsed := r; error := [] |}
  | Throw e => {| parsed := parsed st; error := message e |}
  end.
End App.

(** * Notions of the specification *)

(** The sum of the sizes of the values of an object. *)
Definition props_size (o : list (list N * JsonValue)) : nat :=
  list_sum (map (fun kv => size (snd kv)) o).

(** The body of the source function, over [resolve]. *)
Definition resolve_unfold (v : JsonValue) : JsonValue :=
  match v with
  | JString s =>
      match JSON.parse s with
      | Normal p => resolve p
      | Throw _ => v
      end
  | JArray l => JArray (map resolve l)
  | JObject o =>
      JObject (Object_fromEntries (map (fun kv => (fst kv, resolve (snd kv))) o))
  | JNull | JBoolean _ | JNumber _ => v
  end.

(** ** Property order of objects *)

(** [k] is enumerated before [k']. *)
Definition key_before (k k' : list N) : bool :=
  negb (bool_decide (k = k')) &&
  match array_index k, array_index k' with
  | Some i, Some j => i <? j
  | Some _, None => true
  | None, Some _ => false
  | None, None => true
  end.

Fixpoint ordered_keys (ks : list (list N)) : bool :=
  match ks with
  | [] => true
  | k :: r => forallb (key_before k) r && ordered_keys r
  end.

(** The values an engine can hold: in every object the keys are distinct
    and in enumeration order. *)
Fixpoint well_formed (v : JsonValue) : bool :=
  match v with
  | JArray l => forallb well_formed l
  | JObject o => ordered_keys (map fst o) && forallb (fun kv => well_formed (snd kv)) o
  | JNull | JBoolean _ | JNumber _ | JString _ => true
  end.

(** A run of digits without a leading zero. *)
Definition no_lead (ds : list N) : Prop :=
  match ds with
  | [] => True
  | c :: _ => c <> Ch.ZERO
  end.

(** ** Resolved values *)

(** No string leaf of [v] holds a JSON text. *)
Fixpoint no_json_string (v : JsonValue) : bool :=
  match v with
  | JString s =>
      match JSON.parse s with
      | Normal _ => false
      | Throw _ => true
      end
  | JArray l => forallb no_json_string l
  | JObject o => forallb (fun kv => no_json_string (snd kv)) o
  | JNull | JBoolean _ | JNumber _ => true
  end.

(** ** The key of a line *)

(** The key of the specification: the trimmed line has, at its head, a
    quoted key immediately followed by a colon. *)
Definition leading_key (s : list N) : option (list N) :=
  match s with
  | c :: r =>
      if c =? Ch.QUOTE then
        match not_quotes r with
        | ((_ :: _) as k, q :: c' :: _) =>
            if (q =? Ch.QUOTE) && (c' =? Ch.COLON) then Some k else None
        | _ => None
        end
      else None
  | [] => None
  end.

(** [s] holds the pattern with key [k] after the prefix [pre]. *)
Definition key_pattern (s pre k : list N) : Prop :=
  k <> [] /\ Forall (fun c => c <> Ch.QUOTE) k /\
  exists post, s = pre ++ Ch.QUOTE :: k ++ Ch.QUOTE :: Ch.COLON :: post.

(** The original line of index [j] has key [k]. *)
Definition key_at (origLines : list (list N)) (k : list N) (j : nat) : Prop :=
  match_key (trim (nth j origLines [])) = Some k.

(** The loop invariant: every entry made so far maps one of the resolved
    lines already visited to an original line before the cursor, and the
    entries grow strictly. *)
Definition line_map_inv (st : gmap nat nat * nat) (parsedIdx : nat) : Prop :=
  (forall a x, st.1 !! a = Some x ->
     (1 <= a <= parsedIdx)%nat /\ (1 <= x <= st.2)%nat) /\
  (forall a b x y, (a < b)%nat ->
     st.1 !! a = Some x -> st.1 !! b = Some y -> (x < y)%nat).

(** ** Example data *)

(** [lines.join('\n')] *)
Definition join_lines (ls : list (list N)) : list N :=
  match ls with
  | [] => []
  | l :: r => l ++ concat (map (fun x => Ch.LF :: x) r)
  end.



Definition thirty : spec_float := S754_finite false 8444249301319680 (-48).


Definition john_resolved : JsonValue :=
  JObject [(js "data",
            JObject [(js "name", JString (js "John")); (js "age", JNumber thirty)])].

(** The line-map example of the specification. *)
Definition spec_original : list N :=
  join_lines [js "{"; js "  'a': '1',"; js "  'b': {'c':2}"; js "}"].

Definition spec_resolved : list N :=
  join_lines [js "{"; js "  'a': 1,"; js "  'b': {"; js "    'c': 2"; js "  }"; js "}"].

(** An array whose only element is a string with a quoted word and a colon
    inside; it is its own resolution and its own rendering. *)
Definition quoted_word_text : list N :=
  join_lines [js "["; js "  'say \'hi\': there'"; js "]"].

(** An array of twenty numbers and an object: twenty-one lines without a
    key, then the key [z]; and the rendering of its resolution. *)
Definition far_key_original : list N :=
  join_lines (js "[" :: repeat (js "  0,") 20 ++ [js "  {'z': 1}"; js "]"]).

Definition far_key_resolved : list N :=
  join_lines (js "[" :: repeat (js "  0,") 20
              ++ [js "  {"; js "    'z': 1"; js "  }"; js "]"]).

Definition engine_message (e : Error) : list N :=
  match e with
  | SyntaxError => js "Unexpected token in JSON"
  | RangeError => js "Maximum call stack size exceeded"
  end.

(** The application fed a sequence of inputs. *)
Definition run (message : Error -> list N) (stack : nat) (inputs : list (list N))
  (st : AppState) : AppState :=
  fold_left (fun st input => handleParse message stack input st) inputs st.



(** * The rest of the component *)

(** ** The gutter of the resolved editor *)

(** The digits of [n], most significant first, pushed before [acc]. *)
Fixpoint to_digits (fuel n : nat) (acc : list N) : list N :=
  match fuel with
  | O => acc
  | S fuel =>
      let d := Ch.ZERO + N.of_nat (n mod 10) in
      if (n <? 10)%nat then d :: acc else to_digits fuel (n / 10) (d :: acc)
  end.

(** The text of a line number in a template literal: its decimal form. *)
Definition Number_toString (n : nat) : list N := to_digits (S n) n [].

(** The [lineNumbers] callback given to the resolved editor: the original
    line of the map when it is there and truthy, the line's own number
    otherwise. *)
Definition lineNumbers (lineMapping : gmap nat nat) (lineNumber : nat) : list N :=
  match lineMapping !! lineNumber with
  | Some origLine =>
      if (origLine =? 0)%nat then Number_toString lineNumber
      else Number_toString origLine
  | None => Number_toString lineNumber
  end.

(** ** The resize handle *)

(** The Number value of an integer. *)
Definition Number_of_Z (z : Z) : spec_float := binary_normalize 53 1024 z 0 false.

(** [Math.max] and [Math.min] of two Numbers: [NaN] when one of them is;
    of the two zeros, the positive one is the larger. *)
Definition Math_max (a b : spec_float) : spec_float :=
  match SFcompare a b with
  | None => S754_nan
  | Some Lt => b
  | Some Gt => a
  | Some Eq =>
      match a with
      | S754_zero true => b
      | _ => a
      end
  end.

Definition Math_min (a b : spec_float) : spec_float :=
  match SFcompare a b with
  | None => S754_nan
  | Some Lt => a
  | Some Gt => b
  | Some Eq =>
      match a with
      | S754_zero false => b
      | _ => a
      end
  end.

(** What [getBoundingClientRect] gives that the handler reads. *)
Record DOMRect : Type := { rect_left : spec_float; rect_width : spec_float }.

(** [handleMouseMove]: the split ratio after a move of the mouse to
    [clientX], [panels] being the rectangle of the panels when the
    reference to them is set. *)
Definition handleMouseMove (panels : option DOMRect) (clientX : spec_float)
  (splitRatio : spec_float) : spec_float :=
  match panels with
  | None => splitRatio
  | Some rect =>
      let x := SFsub 53 1024 clientX (rect_left rect) in
      let ratio :=
        Math_min (Number_of_Z 80)
          (Math_max (Number_of_Z 20)
             (SFmul 53 1024 (SFdiv 53 1024 x (rect_width rect)) (Number_of_Z 100))) in
      ratio
  end.

(** ** Further notions *)

(** The key the builder reads on a line. *)
Definition line_key (line : list N) : option (list N) := match_key (trim line).

(** Every entry of [m] relates a line of [parsedLines] and a line of
    [origLines] that exist and have the same key. *)
Definition entries_sound (origLines parsedLines : list (list N)) (m : gmap nat nat) : Prop :=
  forall a x, m !! a = Some x ->
    (1 <= a <= length parsedLines)%nat /\ (1 <= x <= length origLines)%nat /\
    exists k, line_key (nth (a - 1) parsedLines []) = Some k /\
              line_key (nth (x - 1) origLines []) = Some k.

(** Every entry of [st] is at most twenty original lines after an earlier
    entry, or among the first twenty lines; the cursor is at the start or
    just after the line of an entry. *)
Definition gap_inv (st : gmap nat nat * nat) : Prop :=
  (st.2 = 0%nat \/ exists a, st.1 !! a = Some st.2) /\
  (forall a x, st.1 !! a = Some x ->
     (x <= 20)%nat \/
     exists a' x', (a' < a)%nat /\ st.1 !! a' = Some x' /\ (x' < x <= x' + 20)%nat).

(** Among any twenty consecutive lines, one has a key. *)
Definition windows_keyed (lines : list (list N)) : Prop :=
  forall i, (i + 20 <= length lines)%nat ->
    exists j, (i <= j < i + 20)%nat /\ line_key (nth j lines []) <> None.


(** ** More example data *)

(** The original text of the line-map example, indented by four. *)
Definition spec_original_wide : list N :=
  join_lines [js "{"; js "    'a': '1',"; js "    'b': {'c':2}"; js "}"].

(** An object of twenty-one properties, one on each line. *)
Definition keyed_text : list N :=
  join_lines (js "{" :: repeat (js "  'k': 0,") 20 ++ [js "  'z': 1"; js "}"]).

(** * Properties *)

(** ** The parser consumes what it reads *)

Module JSON_facts.
Import JSON.

Lemma skip_ws_length s : (length (skip_ws s) <= length s)%nat.
Proof.
  induction s as [|c r IH]; simpl; [lia|].
  destruct (is_ws c); simpl; lia.
Qed.

Lemma string_chars_length_aux n :
  forall s t r, (length s <= n)%nat -> string_chars s = Some (t, r) ->
    (S (length t + length r) <= length s)%nat.
Proof.
  induction n as [|n IH]; intros s t r Hn H.
  - destruct s; simpl in *; [discriminate|lia].
  - destruct s as [|c s]; simpl in H; [discriminate|].
    repeat case_match; simplify_eq; simpl in *;
      try lia;
      match goal with
      | Hrec : string_chars ?x = Some (?t', ?r') |- _ =>
          apply IH in Hrec; simpl in *; lia
      end.
Qed.

Lemma string_chars_length s t r :
  string_chars s = Some (t, r) -> (S (length t + length r) <= length s)%nat.
Proof. apply (string_chars_length_aux (length s)); lia. Qed.

Lemma digits_length s ds r :
  digits s = (ds, r) -> (length ds + length r = length s)%nat.
Proof.
  revert ds r; induction s as [|c s IH]; intros ds r H; simpl in H.
  - by simplify_eq.
  - destruct (is_digit c).
    + destruct (digits s) as [ds' r'] eqn:E. simplify_eq.
      specialize (IH _ _ eq_refl). simpl; lia.
    + simplify_eq. simpl; lia.
Qed.

Lemma int_part_length s ds r :
  int_part s = Some (ds, r) -> (length r < length s)%nat.
Proof.
  destruct s as [|c s]; simpl; [discriminate|].
  repeat case_match; intros; simplify_eq; simpl; try lia.
  match goal with H : digits _ = _ |- _ => apply digits_length in H end. lia.
Qed.

Lemma frac_part_length s ds r :
  frac_part s = Some (ds, r) -> (length r <= length s)%nat.
Proof.
  destruct s as [|c s]; simpl; [intros; simplify_eq; simpl; lia|].
  repeat case_match; intros; simplify_eq; simpl; try lia.
  match goal with H : digits _ = _ |- _ => apply digits_length in H end.
  simpl in *; lia.
Qed.

Lemma exp_part_length s e r :
  exp_part s = Some (e, r) -> (length r <= length s)%nat.
Proof.
  destruct s as [|c s]; simpl; [intros; simplify_eq; simpl; lia|].
  unfold exp_sign.
  repeat case_match; intros; simplify_eq; simpl; try lia;
  match goal with H : digits _ = _ |- _ => apply digits_length in H end;
  simpl in *; lia.
Qed.

Lemma number_length s n r :
  number s = Some (n, r) -> (length r < length s)%nat.
Proof.
  unfold number. intros H.
  repeat case_match; simplify_eq;
  repeat match goal with
  | H : int_part _ = Some _ |- _ => apply int_part_length in H
  | H : frac_part _ = Some _ |- _ => apply frac_part_length in H
  | H : exp_part _ = Some _ |- _ => apply exp_part_length in H
  end; simpl in *; lia.
Qed.

Lemma strip_length w s r :
  strip w s = Some r -> (length w + length r = length s)%nat.
Proof.
  revert s; induction w as [|a w IH]; intros [|b s] H; simpl in H;
    simplify_eq; simpl; try lia.
  destruct (a =? b); [|discriminate]. apply IH in H. lia.
Qed.

Lemma props_size_app o1 o2 : props_size (o1 ++ o2) = (props_size o1 + props_size o2)%nat.
Proof. unfold props_size. by rewrite map_app, list_sum_app. Qed.

Lemma set_value_size k v o :
  (props_size (set_value k v o) <= props_size o + size v)%nat.
Proof.
  induction o as [|kv o IH]; simpl; [unfold props_size; simpl; lia|].
  destruct (bool_decide (kv.1 = k)); unfold props_size in *; simpl in *; lia.
Qed.

Lemma insert_index_size i k v o :
  props_size (insert_index i k v o) = (props_size o + size v)%nat.
Proof.
  induction o as [|kv o IH]; simpl; [unfold props_size; simpl; lia|].
  repeat case_match; unfold props_size in *; simpl in *; lia.
Qed.

Lemma CreateDataProperty_size o k v :
  (props_size (CreateDataProperty o k v) <= props_size o + size v)%nat.
Proof.
  unfold CreateDataProperty. repeat case_match.
  - apply set_value_size.
  - rewrite insert_index_size. lia.
  - rewrite props_size_app. unfold props_size; simpl. lia.
Qed.

Lemma Object_fromEntries_size_aux ms : forall o,
  (props_size (fold_left (fun o kv => CreateDataProperty o kv.1 kv.2) ms o)
   <= props_size o + props_size ms)%nat.
Proof.
  induction ms as [|kv ms IH]; intros o; simpl.
  - unfold props_size; simpl; lia.
  - etrans; [apply IH|].
    pose proof (CreateDataProperty_size o kv.1 kv.2).
    unfold props_size in *; simpl; lia.
Qed.

Lemma Object_fromEntries_size ms :
  (props_size (Object_fromEntries ms) <= props_size ms)%nat.
Proof. apply (Object_fromEntries_size_aux ms []). Qed.

Section Containers_facts.
Variable pv : list N -> presult JsonValue.
Hypothesis pv_size : forall s v r,
  pv s = POk v r -> (size v + length r <= length s)%nat.

Lemma elements_size fuel : forall s vs r,
  elements pv fuel s = POk vs r ->
  (S (list_sum (map size vs) + length r) <= length s)%nat.
Proof.
  induction fuel as [|fuel IH]; intros s vs r H; simpl in H; [discriminate|].
  destruct (pv (skip_ws s)) as [v r0| |] eqn:Ev; try discriminate.
  apply pv_size in Ev. pose proof (skip_ws_length s).
  pose proof (skip_ws_length r0).
  destruct (skip_ws r0) as [|c r'] eqn:E0; [discriminate|].
  simpl in *.
  destruct (c =? Ch.COMMA).
  - destruct (elements pv fuel r') as [vs' r''| |] eqn:Er; simplify_eq.
    apply IH in Er. simpl. lia.
  - destruct (c =? Ch.RBRACKET); simplify_eq. simpl. lia.
Qed.

Lemma members_size fuel : forall s ms r,
  members pv fuel s = POk ms r ->
  (S (props_size ms + length r) <= length s)%nat.
Proof.
  induction fuel as [|fuel IH]; intros s ms r H; simpl in H; [discriminate|].
  pose proof (skip_ws_length s).
  destruct (skip_ws s) as [|q r0]; [discriminate|].
  destruct (q =? Ch.QUOTE); [|discriminate].
  destruct (string_chars r0) as [[k r1]|] eqn:Ek; [|discriminate].
  apply string_chars_length in Ek.
  pose proof (skip_ws_length r1).
  destruct (skip_ws r1) as [|c r2]; [discriminate|].
  destruct (c =? Ch.COLON); [|discriminate].
  destruct (pv (skip_ws r2)) as [v r3| |] eqn:Ev; try discriminate.
  apply pv_size in Ev. pose proof (skip_ws_length r2).
  pose proof (skip_ws_length r3).
  destruct (skip_ws r3) as [|d r4]; [discriminate|].
  simpl in *.
  destruct (d =? Ch.COMMA).
  - destruct (members pv fuel r4) as [ms' r5| |] eqn:Er; simplify_eq.
    apply IH in Er. unfold props_size in *; simpl. lia.
  - destruct (d =? Ch.RBRACE); simplify_eq. unfold props_size; simpl. lia.
Qed.
End Containers_facts.

Lemma value_size fuel : forall s v r,
  value fuel s = POk v r -> (size v + length r <= length s)%nat.
Proof.
  induction fuel as [|fuel IH]; intros s v r H; simpl in H; [discriminate|].
  destruct s as [|c s]; [discriminate|].
  destruct (c =? Ch.LBRACE).
  { pose proof (skip_ws_length s).
    destruct (skip_ws s) as [|c' r']; [discriminate|].
    destruct (c' =? Ch.RBRACE); [simplify_eq; simpl in *; lia|].
    destruct (members (value fuel) fuel s) as [ms r''| |] eqn:Em; simplify_eq.
    apply (members_size _ IH) in Em.
    pose proof (Object_fromEntries_size ms).
    unfold props_size in *. simpl. lia. }
  destruct (c =? Ch.LBRACKET).
  { pose proof (skip_ws_length s).
    destruct (skip_ws s) as [|c' r']; [discriminate|].
    destruct (c' =? Ch.RBRACKET); [simplify_eq; simpl in *; lia|].
    destruct (elements (value fuel) fuel s) as [vs r''| |] eqn:Em; simplify_eq.
    apply (elements_size _ IH) in Em. simpl. lia. }
  destruct (c =? Ch.QUOTE).
  { destruct (string_chars s) as [[t r']|] eqn:Et; simplify_eq.
    apply string_chars_length in Et. simpl. lia. }
  unfold keyword in H.
  repeat case_match; simplify_eq;
    try (match goal with H : strip _ _ = Some _ |- _ =>
           apply strip_length in H end; simpl in *; lia).
  match goal with H : number _ = Some _ |- _ => apply number_length in H end.
  simpl in *; lia.
Qed.

(** What [JSON.parse] returns is never larger than the text it read. *)
Lemma parse_size s v : parse s = Normal v -> (size v <= length s)%nat.
Proof.
  unfold parse. intros H.
  destruct (value _ _) as [v' r| |] eqn:Ev; try discriminate.
  apply value_size in Ev. pose proof (skip_ws_length s).
  destruct (skip_ws r); simplify_eq. lia.
Qed.

Lemma size_pos v : (1 <= size v)%nat.
Proof. destruct v; simpl; lia. Qed.

(** The fuel of the parser is enough: a call on a text shorter than its
    fuel never ends for lack of it. *)
Section Containers_fuel.
Variable pv : list N -> presult JsonValue.
Variable n : nat.
Hypothesis pv_size : forall s v r,
  pv s = POk v r -> (size v + length r <= length s)%nat.
Hypothesis pv_fuel : forall s, (length s < n)%nat -> pv s <> PFuel.

Lemma elements_fuel fuel : forall s,
  (length s < fuel)%nat -> (length s < n)%nat -> elements pv fuel s <> PFuel.
Proof.
  induction fuel as [|fuel IH]; intros s Hf Hn; [lia|]. simpl.
  pose proof (skip_ws_length s).
  destruct (pv (skip_ws s)) as [v r0| |] eqn:Ev; [|done|].
  - apply pv_size in Ev. pose proof (size_pos v).
    pose proof (skip_ws_length r0).
    destruct (skip_ws r0) as [|c r']; [done|]. simpl in *.
    destruct (c =? Ch.COMMA).
    + assert (elements pv fuel r' <> PFuel) by (apply IH; lia).
      by destruct (elements pv fuel r').
    + by destruct (c =? Ch.RBRACKET).
  - exfalso. apply (pv_fuel (skip_ws s)); [lia|done].
Qed.

Lemma members_fuel fuel : forall s,
  (length s < fuel)%nat -> (length s < n)%nat -> members pv fuel s <> PFuel.
Proof.
  induction fuel as [|fuel IH]; intros s Hf Hn; [lia|]. simpl.
  pose proof (skip_ws_length s).
  destruct (skip_ws s) as [|q r0]; [done|].
  destruct (q =? Ch.QUOTE); [|done].
  destruct (string_chars r0) as [[k r1]|] eqn:Ek; [|done].
  apply string_chars_length in Ek.
  pose proof (skip_ws_length r1).
  destruct (skip_ws r1) as [|c r2]; [done|].
  destruct (c =? Ch.COLON); [|done].
  pose proof (skip_ws_length r2). simpl in *.
  destruct (pv (skip_ws r2)) as [v r3| |] eqn:Ev; [|done|].
  - apply pv_size in Ev. pose proof (skip_ws_length r3).
    destruct (skip_ws r3) as [|d r4]; [done|]. simpl in *.
    destruct (d =? Ch.COMMA).
    + assert (members pv fuel r4 <> PFuel) by (apply IH; lia).
      by destruct (members pv fuel r4).
    + by destruct (d =? Ch.RBRACE).
  - exfalso. apply (pv_fuel (skip_ws r2)); [lia|done].
Qed.
End Containers_fuel.

Lemma value_fuel fuel : forall s, (length s < fuel)%nat -> value fuel s <> PFuel.
Proof.
  induction fuel as [|fuel IH]; intros s Hf; [lia|]. simpl.
  destruct s as [|c s]; [done|]. simpl in Hf.
  destruct (c =? Ch.LBRACE).
  { destruct (skip_ws s) as [|c' r']; [done|].
    destruct (c' =? Ch.RBRACE); [done|].
    assert (members (value fuel) fuel s <> PFuel)
      by (apply (members_fuel _ fuel (value_size fuel) IH); lia).
    by destruct (members (value fuel) fuel s). }
  destruct (c =? Ch.LBRACKET).
  { destruct (skip_ws s) as [|c' r']; [done|].
    destruct (c' =? Ch.RBRACKET); [done|].
    assert (elements (value fuel) fuel s <> PFuel)
      by (apply (elements_fuel _ fuel (value_size fuel) IH); lia).
    by destruct (elements (value fuel) fuel s). }
  unfold keyword. repeat case_match; done.
Qed.

Lemma parse_fuel text : value (S (length text)) (skip_ws text) <> PFuel.
Proof. apply value_fuel. pose proof (skip_ws_length text). lia. Qed.

End JSON_facts.

(** ** The resolver with enough stack *)

Lemma Array_map_Normal {A B} (f : A -> completion B) (g : A -> B) l :
  (forall x, x ∈ l -> f x = Normal (g x)) -> Array_map f l = Normal (map g l).
Proof.
  induction l as [|x l IH]; intros H; simpl; [done|].
  rewrite (H x) by left. simpl.
  rewrite IH; [done|]. intros y Hy. apply H. by right.
Qed.

Lemma elem_size (x : JsonValue) l : x ∈ l -> (size x <= list_sum (map size l))%nat.
Proof.
  induction 1 as [|y z l _ IH]; simpl; lia.
Qed.

Lemma prop_size (kv : list N * JsonValue) o :
  kv ∈ o -> (size (snd kv) <= props_size o)%nat.
Proof.
  unfold props_size.
  induction 1 as [|y z l _ IH]; simpl; lia.
Qed.

Lemma parseNestedJson_step stack v :
  (forall x, (size x < size v)%nat -> parseNestedJson stack x = Normal (resolve x)) ->
  parseNestedJson (S stack) v = Normal (resolve_unfold v).
Proof.
  intros IH. destruct v as [| | |s|l|o]; simpl; try done.
  - destruct (JSON.parse s) as [p|e] eqn:Ep; simpl; [|done].
    apply JSON_facts.parse_size in Ep.
    rewrite IH by (simpl; lia). done.
  - rewrite (Array_map_Normal _ resolve); [done|].
    intros x Hx. apply IH. apply elem_size in Hx. simpl; lia.
  - unfold Object_entries.
    rewrite (Array_map_Normal _ (fun kv => (fst kv, resolve (snd kv)))); [done|].
    intros kv Hkv. rewrite IH; [done|].
    apply prop_size in Hkv. unfold props_size in Hkv. simpl; lia.
Qed.

Lemma parseNestedJson_enough_aux k : forall v stack,
  (size v <= k)%nat -> (size v < stack)%nat ->
  parseNestedJson stack v = Normal (resolve v).
Proof.
  induction k as [|k IH]; intros v stack Hk Hs.
  - pose proof (JSON_facts.size_pos v). lia.
  - assert (Hsub : forall n x, (size v <= n)%nat -> (size x < size v)%nat ->
              parseNestedJson n x = Normal (resolve x))
      by (intros n x Hn Hx; apply IH; lia).
    assert (Hres : resolve v = resolve_unfold v).
    { unfold resolve at 1.
      rewrite (parseNestedJson_step (size v) v); [done|].
      intros x Hx. by apply Hsub. }
    destruct stack as [|stack]; [lia|].
    rewrite Hres. apply parseNestedJson_step.
    intros x Hx. apply Hsub; [lia|done].
Qed.

(** With more frames than the value is large, the call completes and
    returns [resolve]. *)
Lemma parseNestedJson_enough v stack :
  (size v < stack)%nat -> parseNestedJson stack v = Normal (resolve v).
Proof. apply (parseNestedJson_enough_aux (size v)). lia. Qed.

(** The equations of [resolve]: the body of the source function. *)
Lemma resolve_eq v : resolve v = resolve_unfold v.
Proof.
  unfold resolve at 1.
  rewrite (parseNestedJson_step (size v) v); [done|].
  intros x Hx. by apply parseNestedJson_enough.
Qed.

(** ** Property order of objects *)

Module Object_facts.

(** *** Array indices are canonical: one key per index *)

Lemma digits_value_snoc ds d :
  digits_value (ds ++ [d]) = 10 * digits_value ds + (d - Ch.ZERO).
Proof. unfold digits_value. by rewrite fold_left_app. Qed.

Lemma is_digit_spec c : is_digit c = true <-> 48 <= c <= 57.
Proof. unfold is_digit, Ch.ZERO, Ch.NINE. rewrite andb_true_iff, !N.leb_le. lia. Qed.

Lemma no_lead_positive ds :
  forallb is_digit ds = true -> no_lead ds -> ds <> [] -> 0 < digits_value ds.
Proof.
  induction ds as [|d ds IH] using rev_ind; intros Hd Hl Hne; [done|].
  rewrite forallb_app in Hd. apply andb_true_iff in Hd as [Hd1 Hd2].
  simpl in Hd2. rewrite andb_true_r in Hd2. apply is_digit_spec in Hd2.
  rewrite digits_value_snoc. unfold Ch.ZERO in *.
  destruct ds as [|c ds].
  - simpl in *. unfold digits_value, Ch.ZERO in *; simpl. lia.
  - assert (0 < digits_value (c :: ds)) by (apply IH; done). lia.
Qed.

Lemma digits_value_inj ds : forall ds',
  forallb is_digit ds = true -> forallb is_digit ds' = true ->
  no_lead ds -> no_lead ds' ->
  digits_value ds = digits_value ds' -> ds = ds'.
Proof.
  induction ds as [|d ds IH] using rev_ind; intros ds' Hd Hd' Hl Hl' Hv.
  - destruct ds' as [|c ds']; [done|].
    assert (0 < digits_value (c :: ds')) by (by apply no_lead_positive).
    change (digits_value []) with 0 in Hv. lia.
  - destruct ds' as [|d' ds' _] using rev_ind.
    + assert (ds ++ [d] <> []) by (by destruct ds).
      assert (0 < digits_value (ds ++ [d])) by (by apply no_lead_positive).
      change (digits_value []) with 0 in Hv. lia.
    + rewrite forallb_app in Hd, Hd'.
      apply andb_true_iff in Hd as [Hd1 Hd2].
      apply andb_true_iff in Hd' as [Hd1' Hd2'].
      simpl in Hd2, Hd2'. rewrite andb_true_r in Hd2, Hd2'.
      apply is_digit_spec in Hd2, Hd2'.
      rewrite !digits_value_snoc in Hv. unfold Ch.ZERO in *.
      assert (digits_value ds = digits_value ds' /\ d = d') as [Hv' ->] by lia.
      f_equal. apply IH; try done.
      * destruct ds; simpl in *; done.
      * destruct ds'; simpl in *; done.
Qed.

Lemma array_index_inj k k' i :
  array_index k = Some i -> array_index k' = Some i -> k = k'.
Proof.
  assert (Hcases : forall k i, array_index k = Some i ->
            (k = [Ch.ZERO] /\ i = 0) \/
            (forallb is_digit k = true /\ no_lead k /\ k <> [] /\ i = digits_value k)).
  { intros [|c r] j H; simpl in H; [done|].
    destruct (is_digit c && forallb is_digit r) eqn:Hd; [|done].
    destruct (c =? Ch.ZERO) eqn:Hc; simpl in H.
    - apply N.eqb_eq in Hc as ->.
      destruct r as [|c' r]; simpl in H; [|done].
      left. by simplify_eq.
    - destruct (_ <? _); [|done]. simplify_eq. right.
      apply N.eqb_neq in Hc. by repeat split. }
  intros H1 H2. apply Hcases in H1, H2.
  destruct H1 as [[-> ->]|(Hd & Hl & Hne & ->)], H2 as [[-> H0]|(Hd' & Hl' & Hne' & H0)];
    try done.
  - pose proof (no_lead_positive k' Hd' Hl' Hne'). lia.
  - pose proof (no_lead_positive k Hd Hl Hne). lia.
  - by apply digits_value_inj.
Qed.

(** *** [CreateDataProperty] keeps the enumeration order *)

Lemma has_key_false k o :
  has_key k o = false <-> Forall (fun kv => fst kv <> k) o.
Proof.
  unfold has_key. induction o as [|kv o IH]; simpl.
  - split; [constructor|done].
  - rewrite orb_false_iff, IH, Forall_cons, bool_decide_eq_false. tauto.
Qed.

Lemma set_value_keys k v o :
  map fst (set_value k v o) = map fst o.
Proof.
  induction o as [|kv o IH]; simpl; [done|].
  destruct (bool_decide (kv.1 = k)) eqn:E; simpl.
  - apply bool_decide_eq_true in E. by rewrite E.
  - by rewrite IH.
Qed.

Lemma insert_index_forallb (P : list N -> bool) i k v o :
  forallb P (map fst (insert_index i k v o)) = P k && forallb P (map fst o).
Proof.
  induction o as [|kv o IH]; simpl; [done|].
  destruct (array_index kv.1) as [j|]; [|done].
  destruct (j <? i); simpl; [|done].
  rewrite IH. by destruct (P kv.1), (P k).
Qed.

Lemma key_before_index k k' i :
  array_index k' = Some i -> key_before k k' = true ->
  exists j, array_index k = Some j /\ j < i.
Proof.
  unfold key_before. intros -> H.
  apply andb_true_iff in H as [_ H].
  destruct (array_index k) as [j|]; [|done].
  exists j. split; [done|]. by apply N.ltb_lt.
Qed.

Lemma key_before_trans_index k0 k k' i :
  array_index k = Some i -> k <> k' ->
  (forall j, array_index k0 = Some j -> i < j) ->
  key_before k0 k' = true -> key_before k k' = true.
Proof.
  unfold key_before. intros Hi Hne Hlt H. rewrite Hi.
  apply andb_true_iff in H as [_ H].
  apply andb_true_iff. split; [by apply negb_true_iff, bool_decide_eq_false|].
  destruct (array_index k0) as [j0|], (array_index k') as [j'|]; try done.
  apply N.ltb_lt in H. apply N.ltb_lt. specialize (Hlt j0 eq_refl). lia.
Qed.

Lemma insert_index_ordered i k v o :
  ordered_keys (map fst o) = true -> has_key k o = false ->
  array_index k = Some i ->
  ordered_keys (map fst (insert_index i k v o)) = true.
Proof.
  intros Ho Hk Hi. apply has_key_false in Hk.
  induction o as [|kv o IH]; simpl; [done|].
  simpl in Ho. apply andb_true_iff in Ho as [Hkv Ho].
  apply Forall_cons in Hk as [Hne Hk].
  assert (Hhead : (forall j, array_index kv.1 = Some j -> i < j) ->
            ordered_keys (map fst ((k, v) :: kv :: o)) = true).
  { intros Hlt. simpl. rewrite Hkv, Ho, !andb_true_r.
    apply andb_true_iff; split.
    - unfold key_before. rewrite Hi.
      apply andb_true_iff; split;
        [by apply negb_true_iff, bool_decide_eq_false|].
      destruct (array_index kv.1) as [j|]; [|done].
      apply N.ltb_lt. by apply Hlt.
    - apply forallb_forall. intros k' Hk'.
      apply (key_before_trans_index kv.1 k k' i); try done.
      + apply in_map_iff in Hk' as (kv' & <- & Hin).
        apply list_elem_of_In in Hin.
        rewrite Forall_forall in Hk. intros Heq. by apply (Hk kv').
      + rewrite forallb_forall in Hkv. by apply Hkv. }
  destruct (array_index kv.1) as [j|] eqn:Ej.
  - destruct (j <? i) eqn:Eji.
    + simpl. rewrite insert_index_forallb, Hkv, IH by done.
      rewrite !andb_true_r. unfold key_before. rewrite Ej, Hi, Eji.
      rewrite andb_true_r. by apply negb_true_iff, bool_decide_eq_false.
    + apply Hhead. intros j' [= <-]. apply N.ltb_ge in Eji.
      assert (i <> j); [|lia].
      intros ->. apply Hne. by eapply array_index_inj.
  - by apply Hhead.
Qed.

Lemma snoc_ordered k v o :
  ordered_keys (map fst o) = true -> has_key k o = false ->
  array_index k = None ->
  ordered_keys (map fst (o ++ [(k, v)])) = true.
Proof.
  intros Ho Hk Hi. apply has_key_false in Hk.
  induction o as [|kv o IH]; simpl; [done|].
  simpl in Ho. apply andb_true_iff in Ho as [Hkv Ho].
  apply Forall_cons in Hk as [Hne Hk].
  rewrite IH by done. rewrite map_app, forallb_app, Hkv. simpl.
  rewrite !andb_true_r. unfold key_before. rewrite Hi.
  apply andb_true_iff; split;
    [by apply negb_true_iff, bool_decide_eq_false|].
  by destruct (array_index kv.1).
Qed.

Lemma CreateDataProperty_ordered o k v :
  ordered_keys (map fst o) = true ->
  ordered_keys (map fst (CreateDataProperty o k v)) = true.
Proof.
  intros Ho. unfold CreateDataProperty.
  destruct (has_key k o) eqn:Hk.
  - by rewrite set_value_keys.
  - destruct (array_index k) as [i|] eqn:Ei.
    + by apply insert_index_ordered.
    + by apply snoc_ordered.
Qed.

Lemma Object_fromEntries_ordered ms :
  ordered_keys (map fst (Object_fromEntries ms)) = true.
Proof.
  unfold Object_fromEntries.
  assert (H : forall o, ordered_keys (map fst o) = true ->
            ordered_keys (map fst
              (fold_left (fun o kv => CreateDataProperty o kv.1 kv.2) ms o)) = true).
  { induction ms as [|kv ms IH]; intros o Ho; simpl; [done|].
    apply IH. by apply CreateDataProperty_ordered. }
  by apply H.
Qed.

(** *** Rebuilding an object from its own entries *)

Lemma ordered_keys_app_l ks ks' :
  ordered_keys (ks ++ ks') = true -> ordered_keys ks = true.
Proof.
  induction ks as [|k ks IH]; simpl; [done|].
  rewrite forallb_app, !andb_true_iff. intros [[H _] Ho]. auto.
Qed.

Lemma ordered_keys_snoc ks k :
  ordered_keys (ks ++ [k]) = true -> Forall (fun k0 => key_before k0 k = true) ks.
Proof.
  induction ks as [|k0 ks IH]; simpl; [constructor|].
  rewrite forallb_app, !andb_true_iff. simpl. rewrite andb_true_r.
  intros [[_ H] Ho]. constructor; auto.
Qed.

Lemma key_before_ne k k' : key_before k k' = true -> k <> k'.
Proof.
  unfold key_before. intros H. apply andb_true_iff in H as [H _].
  by apply negb_true_iff, bool_decide_eq_false in H.
Qed.

Lemma insert_index_last i k v o :
  array_index k = Some i ->
  Forall (fun kv => key_before (fst kv) k = true) o ->
  insert_index i k v o = o ++ [(k, v)].
Proof.
  intros Hi. induction 1 as [|kv o Hkv _ IH]; simpl; [done|].
  destruct (key_before_index _ _ _ Hi Hkv) as (j & -> & Hj).
  apply N.ltb_lt in Hj. by rewrite Hj, IH.
Qed.

Lemma CreateDataProperty_last o k v :
  ordered_keys (map fst o ++ [k]) = true ->
  CreateDataProperty o k v = o ++ [(k, v)].
Proof.
  intros Ho. apply ordered_keys_snoc in Ho.
  apply Forall_map in Ho.
  unfold CreateDataProperty.
  assert (has_key k o = false) as ->.
  { apply has_key_false. eapply Forall_impl; [exact Ho|].
    intros kv. apply key_before_ne. }
  destruct (array_index k) as [i|] eqn:Ei; [|done].
  by apply insert_index_last.
Qed.

Lemma Object_fromEntries_id o :
  ordered_keys (map fst o) = true -> Object_fromEntries o = o.
Proof.
  unfold Object_fromEntries.
  assert (H : forall ms acc, ordered_keys (map fst (acc ++ ms)) = true ->
            fold_left (fun o kv => CreateDataProperty o kv.1 kv.2) ms acc = acc ++ ms).
  { induction ms as [|[k v] ms IH]; intros acc Ho; simpl.
    - by rewrite app_nil_r.
    - rewrite CreateDataProperty_last.
      + rewrite IH; rewrite <- app_assoc; done.
      + rewrite map_app in Ho. simpl in Ho.
        apply (ordered_keys_app_l _ (map fst ms)).
        by rewrite <- app_assoc. }
  intros Ho. by apply (H o []).
Qed.

(** Mapping the values of an object and rebuilding it keeps the keys and
    their order. *)
Lemma Object_fromEntries_map (f : JsonValue -> JsonValue) o :
  ordered_keys (map fst o) = true ->
  Object_fromEntries (map (fun kv => (fst kv, f (snd kv))) o)
  = map (fun kv => (fst kv, f (snd kv))) o.
Proof.
  intros Ho. apply Object_fromEntries_id.
  by rewrite map_map, (map_ext _ fst).
Qed.

(** *** The values of a rebuilt object are values of its entries *)

Section Values.
Variable P : JsonValue -> Prop.

Lemma set_value_Forall k v o :
  P v -> Forall (fun kv => P (snd kv)) o ->
  Forall (fun kv => P (snd kv)) (set_value k v o).
Proof.
  intros Hv. induction 1 as [|kv o Hkv Ho IH]; simpl; [constructor|].
  destruct (bool_decide (kv.1 = k)); constructor; done.
Qed.

Lemma insert_index_Forall i k v o :
  P v -> Forall (fun kv => P (snd kv)) o ->
  Forall (fun kv => P (snd kv)) (insert_index i k v o).
Proof.
  intros Hv. induction 1 as [|kv o Hkv Ho IH]; simpl; [by repeat constructor|].
  repeat case_match; repeat constructor; done.
Qed.

Lemma CreateDataProperty_Forall o k v :
  P v -> Forall (fun kv => P (snd kv)) o ->
  Forall (fun kv => P (snd kv)) (CreateDataProperty o k v).
Proof.
  intros Hv Ho. unfold CreateDataProperty. repeat case_match.
  - by apply set_value_Forall.
  - by apply insert_index_Forall.
  - apply Forall_app. split; [done|]. by repeat constructor.
Qed.

Lemma Object_fromEntries_Forall ms :
  Forall (fun kv => P (snd kv)) ms ->
  Forall (fun kv => P (snd kv)) (Object_fromEntries ms).
Proof.
  unfold Object_fromEntries.
  assert (H : forall o, Forall (fun kv => P (snd kv)) ms ->
            Forall (fun kv => P (snd kv)) o ->
            Forall (fun kv => P (snd kv))
              (fold_left (fun o kv => CreateDataProperty o kv.1 kv.2) ms o)).
  { induction ms as [|kv ms IH]; intros o Hms Ho; simpl; [done|].
    apply Forall_cons in Hms as [Hkv Hms].
    apply IH; [done|]. by apply CreateDataProperty_Forall. }
  intros Hms. apply H; [done|constructor].
Qed.
End Values.

End Object_facts.

(** ** Resolved values *)

Module Resolve_facts.
Import Object_facts.

(** Induction along the calls of [resolve]. *)
Lemma resolve_ind (P : JsonValue -> JsonValue -> Prop) :
  P JNull JNull ->
  (forall b, P (JBoolean b) (JBoolean b)) ->
  (forall n, P (JNumber n) (JNumber n)) ->
  (forall s e, JSON.parse s = Throw e -> P (JString s) (JString s)) ->
  (forall s p, JSON.parse s = Normal p -> P p (resolve p) -> P (JString s) (resolve p)) ->
  (forall l, Forall (fun x => P x (resolve x)) l -> P (JArray l) (JArray (map resolve l))) ->
  (forall o, Forall (fun kv => P (snd kv) (resolve (snd kv))) o ->
     P (JObject o)
       (JObject (Object_fromEntries (map (fun kv => (fst kv, resolve (snd kv))) o)))) ->
  forall v, P v (resolve v).
Proof.
  intros Hnull Hbool Hnum Hfail Hstr Harr Hobj v.
  remember (size v) as k eqn:Hk.
  assert (Hle : (size v <= k)%nat) by lia. clear Hk.
  revert v Hle. induction k as [|k IH]; intros v Hle.
  { pose proof (JSON_facts.size_pos v). lia. }
  rewrite resolve_eq. destruct v as [| | |s|l|o]; simpl; auto.
  - destruct (JSON.parse s) as [p|e] eqn:Ep; [|by eapply Hfail].
    apply Hstr; [done|]. apply IH.
    apply JSON_facts.parse_size in Ep. simpl in Hle. lia.
  - apply Harr. apply Forall_forall. intros x Hx. apply IH.
    apply elem_size in Hx. simpl in Hle. lia.
  - apply Hobj. apply Forall_forall. intros kv Hkv. apply IH.
    apply prop_size in Hkv. unfold props_size in Hkv.
    simpl in Hle. lia.
Qed.

Lemma forallb_Forall {A} (f : A -> bool) l :
  forallb f l = true <-> Forall (fun x => f x = true) l.
Proof.
  induction l as [|x l IH]; simpl.
  - split; [constructor|done].
  - rewrite andb_true_iff, Forall_cons, IH. tauto.
Qed.

(** No string leaf of a resolved value holds a JSON text. *)
Lemma resolve_no_json_string v : no_json_string (resolve v) = true.
Proof.
  apply (resolve_ind (fun _ r => no_json_string r = true)); simpl; try done.
  - intros s e ->. done.
  - intros l Hl. apply forallb_Forall, Forall_map.
    eapply Forall_impl; [exact Hl|]. done.
  - intros o Ho. apply forallb_Forall.
    apply (Object_fromEntries_Forall (fun v => no_json_string v = true)).
    apply Forall_map. eapply Forall_impl; [exact Ho|]. done.
Qed.

(** A resolved value is well formed, whatever the argument. *)
Lemma resolve_well_formed v : well_formed (resolve v) = true.
Proof.
  apply (resolve_ind (fun _ r => well_formed r = true)); simpl; try done.
  - intros l Hl. apply forallb_Forall, Forall_map.
    eapply Forall_impl; [exact Hl|]. done.
  - intros o Ho. apply andb_true_iff. split.
    + apply Object_fromEntries_ordered.
    + apply forallb_Forall.
      apply (Object_fromEntries_Forall (fun v => well_formed v = true)).
      apply Forall_map. eapply Forall_impl; [exact Ho|]. done.
Qed.

(** [resolve] changes nothing in a well-formed value without JSON text in
    its strings. *)
Lemma resolve_fixpoint t :
  well_formed t = true -> no_json_string t = true -> resolve t = t.
Proof.
  induction t as [| | |s|l IH|o IH] using JsonValue_ind; intros Hwf Hno;
    rewrite resolve_eq; simpl in *; try done.
  - by destruct (JSON.parse s).
  - f_equal. apply forallb_Forall in Hwf, Hno.
    induction IH as [|x l Hx _ IHl]; simpl; [done|].
    apply Forall_cons in Hwf as [? ?], Hno as [? ?].
    f_equal; auto.
  - apply andb_true_iff in Hwf as [Hord Hwf].
    rewrite Object_fromEntries_map by done. f_equal.
    apply forallb_Forall in Hwf, Hno. clear Hord.
    induction IH as [|[k x] o Hx _ IHo]; simpl; [done|].
    apply Forall_cons in Hwf as [? ?], Hno as [? ?]. simpl in *.
    f_equal; [f_equal|]; auto.
Qed.

Lemma resolve_idempotent v : resolve (resolve v) = resolve v.
Proof.
  apply resolve_fixpoint;
    [apply resolve_well_formed|apply resolve_no_json_string].
Qed.

End Resolve_facts.

(** ** What [JSON.parse] returns is well formed *)

Module JSON_wf.
Import JSON Object_facts Resolve_facts.

Section Containers_wf.
Variable pv : list N -> presult JsonValue.
Hypothesis pv_wf : forall s v r, pv s = POk v r -> well_formed v = true.


End Containers_wf.



End JSON_wf.

(** ** The key of a line *)

Module Key_facts.

Lemma not_quotes_spec s k rest :
  not_quotes s = (k, rest) ->
  s = k ++ rest /\ Forall (fun c => c <> Ch.QUOTE) k /\
  (rest = [] \/ exists rest', rest = Ch.QUOTE :: rest').
Proof.
  revert k rest. induction s as [|c s IH]; intros k rest H; simpl in H.
  - simplify_eq. repeat split; [constructor|by left].
  - destruct (c =? Ch.QUOTE) eqn:Ec.
    + simplify_eq. apply N.eqb_eq in Ec as ->.
      repeat split; [constructor|right; by eexists].
    + destruct (not_quotes s) as [k' rest'] eqn:E. simplify_eq.
      destruct (IH _ _ eq_refl) as (-> & Hk & Hr).
      apply N.eqb_neq in Ec. repeat split; [by constructor|done].
Qed.

Lemma not_quotes_app k rest :
  Forall (fun c => c <> Ch.QUOTE) k ->
  not_quotes (k ++ Ch.QUOTE :: rest) = (k, Ch.QUOTE :: rest).
Proof.
  induction 1 as [|c k Hc _ IH]; simpl.
  - done.
  - apply N.eqb_neq in Hc. by rewrite Hc, IH.
Qed.

(** At the head of the line, the code finds the key of the
    specification. *)
Lemma leading_key_match_key s k :
  leading_key s = Some k -> match_key s = Some k.
Proof.
  destruct s as [|c r]; simpl; [done|].
  destruct (c =? Ch.QUOTE); [|done].
  destruct (not_quotes r) as [[|a k'] [|q [|c' rest]]]; try done.
  by destruct ((q =? Ch.QUOTE) && (c' =? Ch.COLON)).
Qed.

Lemma leading_key_spec s k :
  leading_key s = Some k <-> key_pattern s [] k.
Proof.
  unfold key_pattern. split.
  - destruct s as [|c r]; simpl; [done|].
    destruct (c =? Ch.QUOTE) eqn:Ec; [|done]. apply N.eqb_eq in Ec as ->.
    destruct (not_quotes r) as [k0 rest] eqn:E.
    apply not_quotes_spec in E as (-> & Hk & _).
    destruct k0 as [|a k']; [done|].
    destruct rest as [|q [|c' rest]]; try done.
    destruct (q =? Ch.QUOTE) eqn:Eq; [|done].
    destruct (c' =? Ch.COLON) eqn:Ec'; [|done].
    apply N.eqb_eq in Eq as ->, Ec' as ->.
    intros [= <-]. repeat split; [done|done|by eexists].
  - intros (Hne & Hk & post & ->). simpl.
    rewrite not_quotes_app by done.
    destruct k; [done|]. done.
Qed.

(** The code finds a key exactly in the lines that hold the pattern
    somewhere. *)
Lemma match_key_Some s k :
  match_key s = Some k -> exists pre, key_pattern s pre k.
Proof.
  induction s as [|c r IH]; simpl; [done|].
  assert (Hrec : match_key r = Some k -> exists pre, key_pattern (c :: r) pre k).
  { intros H. destruct (IH H) as (pre & Hne & Hk & post & ->).
    exists (c :: pre). repeat split; [done|done|by eexists]. }
  destruct (c =? Ch.QUOTE) eqn:Ec; [|done]. apply N.eqb_eq in Ec as ->.
  destruct (not_quotes r) as [k0 rest] eqn:E.
  apply not_quotes_spec in E as (-> & Hk & _).
  destruct k0 as [|a k']; [done|].
  destruct rest as [|q [|c' rest]]; try done.
  destruct (q =? Ch.QUOTE) eqn:Eq; [|done].
  destruct (c' =? Ch.COLON) eqn:Ec'; [|done].
  apply N.eqb_eq in Eq as ->, Ec' as ->.
  intros [= <-]. exists []. repeat split; [done|done|by eexists].
Qed.

Lemma match_key_None s pre k :
  match_key s = None -> ~ key_pattern s pre k.
Proof.
  intros Hnone (Hne & Hk & post & ->).
  induction pre as [|c pre IH]; simpl in Hnone.
  - rewrite not_quotes_app in Hnone by done.
    destruct k; [done|]. by rewrite !N.eqb_refl in Hnone.
  - apply IH. repeat case_match; done.
Qed.

Lemma match_key_skip c r :
  leading_key (c :: r) = None -> match_key (c :: r) = match_key r.
Proof.
  simpl. repeat case_match; done.
Qed.

(** The key found is the one of the leftmost pattern of the line. *)
Lemma match_key_leftmost s k :
  match_key s = Some k ->
  exists pre, key_pattern s pre k /\
    forall pre' k', key_pattern s pre' k' -> (length pre <= length pre')%nat.
Proof.
  induction s as [|c r IH]; [done|].
  destruct (leading_key (c :: r)) as [k1|] eqn:El.
  - rewrite (leading_key_match_key _ _ El). intros [= <-].
    exists []. split; [by apply leading_key_spec|]. simpl; lia.
  - rewrite (match_key_skip _ _ El). intros H.
    destruct (IH H) as (pre & (Hne & Hk & post & ->) & Hmin).
    exists (c :: pre). split; [repeat split; [done|done|by eexists]|].
    intros [|c' pre'] k' Hp.
    + apply leading_key_spec in Hp. congruence.
    + destruct Hp as (Hne' & Hk' & post' & Heq). simpl in Heq.
      injection Heq as -> Heq. simpl.
      assert (length pre <= length pre')%nat; [|lia].
      apply (Hmin pre' k'). repeat split; [done|done|by eexists].
Qed.

(** *** Trimming does not change the key *)

Lemma trim_space_not_quote c : is_trim_space c = true -> (c =? Ch.QUOTE) = false.
Proof.
  intros H. destruct (c =? Ch.QUOTE) eqn:E; [|done].
  apply N.eqb_eq in E as ->. by vm_compute in H.
Qed.

Lemma trim_space_not_colon c : is_trim_space c = true -> (c =? Ch.COLON) = false.
Proof.
  intros H. destruct (c =? Ch.COLON) eqn:E; [|done].
  apply N.eqb_eq in E as ->. by vm_compute in H.
Qed.

Lemma trim_start_split s :
  exists w, Forall (fun c => is_trim_space c = true) w /\ s = w ++ trim_start s.
Proof.
  induction s as [|c s (w & Hw & IH)]; simpl.
  - by exists [].
  - destruct (is_trim_space c) eqn:Ec.
    + exists (c :: w). split; [by constructor|]. simpl. by rewrite <- IH.
    + by exists [].
Qed.

Lemma match_key_spaces w :
  Forall (fun c => is_trim_space c = true) w -> match_key w = None.
Proof.
  induction 1 as [|c w Hc _ IH]; simpl; [done|].
  by rewrite (trim_space_not_quote c Hc).
Qed.

Lemma not_quotes_spaces r w :
  Forall (fun c => is_trim_space c = true) w ->
  not_quotes (r ++ w)
  = match not_quotes r with
    | (k, []) => (k ++ w, [])
    | (k, q :: rest) => (k, q :: rest ++ w)
    end.
Proof.
  intros Hw. induction r as [|c r IH]; simpl.
  - induction Hw as [|d w Hd _ IHw]; simpl; [done|].
    rewrite (trim_space_not_quote d Hd), IHw. done.
  - destruct (c =? Ch.QUOTE); [done|].
    rewrite IH. by destruct (not_quotes r) as [k [|q rest]].
Qed.

Lemma match_key_app_spaces t w :
  Forall (fun c => is_trim_space c = true) w -> match_key (t ++ w) = match_key t.
Proof.
  intros Hw. induction t as [|c r IH]; simpl.
  - by apply match_key_spaces.
  - destruct (c =? Ch.QUOTE); [|done].
    rewrite (not_quotes_spaces r w Hw).
    destruct (not_quotes r) as [k [|q [|c' rest]]]; simpl.
    + rewrite <- IH. by destruct (k ++ w), k.
    + destruct k as [|a k]; [done|].
      destruct Hw as [|d w Hd Hw]; simpl; [done|].
      by rewrite (trim_space_not_colon d Hd), andb_false_r.
    + destruct k, ((q =? Ch.QUOTE) && (c' =? Ch.COLON)); done.
Qed.

Lemma match_key_trim_start s : match_key (trim_start s) = match_key s.
Proof.
  induction s as [|c s IH]; simpl; [done|].
  destruct (is_trim_space c) eqn:Ec; [|done].
  by rewrite (trim_space_not_quote c Ec).
Qed.

(** The [trim] of the source has no effect on the key that is found. *)
Lemma match_key_trim s : match_key (trim s) = match_key s.
Proof.
  unfold trim. rewrite <- (match_key_trim_start s).
  destruct (trim_start_split (rev (trim_start s))) as (w & Hw & Hs).
  apply (f_equal (@rev N)) in Hs. rewrite rev_involutive, rev_app_distr in Hs.
  rewrite Hs at 2. symmetry. apply match_key_app_spaces.
  by apply Forall_rev.
Qed.

End Key_facts.

(** ** The search window and the loop *)

Module LineMap_facts.

Lemma find_key_Some origLines parsedKey origIdx n : forall i j,
  find_key origLines parsedKey origIdx n i = Some j ->
  (i <= j < i + n)%nat /\ (j < length origLines)%nat /\ (j < origIdx + 20)%nat /\
  (exists k, parsedKey = Some k /\ key_at origLines k j) /\
  (forall j' k, (i <= j' < j)%nat -> parsedKey = Some k -> ~ key_at origLines k j').
Proof.
  induction n as [|n IH]; intros i j H; simpl in H; [done|].
  destruct ((i <? length origLines)%nat && (i <? origIdx + 20)%nat) eqn:Ew; [|done].
  apply andb_true_iff in Ew as [E1 E2].
  apply Nat.ltb_lt in E1, E2.
  assert (Hrec : find_key origLines parsedKey origIdx n (S i) = Some j ->
                 (forall k, parsedKey = Some k -> ~ key_at origLines k i) ->
                 (i <= j < i + S n)%nat /\ (j < length origLines)%nat /\
                 (j < origIdx + 20)%nat /\
                 (exists k, parsedKey = Some k /\ key_at origLines k j) /\
                 (forall j' k, (i <= j' < j)%nat -> parsedKey = Some k ->
                    ~ key_at origLines k j')).
  { intros Hr Hi. apply IH in Hr as (? & ? & ? & ? & Hfirst).
    repeat split; try lia; try done.
    intros j' k Hj' Hk. destruct (decide (j' = i)) as [->|]; [by apply Hi|].
    apply Hfirst; [lia|done]. }
  destruct parsedKey as [pk|]; [|by apply Hrec].
  destruct (match_key (trim (nth i origLines []))) as [ok|] eqn:Eo.
  - destruct (bool_decide (pk = ok)) eqn:Ed.
    + apply bool_decide_eq_true in Ed as ->. simplify_eq.
      repeat split; try lia; try (by exists ok).
    + apply bool_decide_eq_false in Ed. apply Hrec; [done|].
      intros k [= <-]. unfold key_at. rewrite Eo. congruence.
  - apply Hrec; [done|]. intros k _. unfold key_at. by rewrite Eo.
Qed.

Lemma find_key_None origLines parsedKey origIdx n : forall i,
  find_key origLines parsedKey origIdx n i = None ->
  forall j k, (i <= j < i + n)%nat -> (j < length origLines)%nat ->
    (j < origIdx + 20)%nat -> parsedKey = Some k -> ~ key_at origLines k j.
Proof.
  induction n as [|n IH]; intros i H j k Hj Hlen Hwin Hk; [lia|].
  simpl in H.
  destruct ((i <? length origLines)%nat && (i <? origIdx + 20)%nat) eqn:Ew.
  - assert (Hrec : find_key origLines parsedKey origIdx n (S i) = None ->
                   ~ key_at origLines k i -> ~ key_at origLines k j).
    { intros Hr Hi. destruct (decide (j = i)) as [->|]; [done|].
      apply (IH (S i)); try done. lia. }
    subst parsedKey.
    destruct (match_key (trim (nth i origLines []))) as [ok|] eqn:Eo.
    + destruct (bool_decide (k = ok)) eqn:Ed; [done|].
      apply bool_decide_eq_false in Ed. apply Hrec; [done|].
      unfold key_at. rewrite Eo. congruence.
    + apply Hrec; [done|]. unfold key_at. by rewrite Eo.
  - apply andb_false_iff in Ew as [E|E]; apply Nat.ltb_ge in E; lia.
Qed.

(** The search returns the first line of the window with the key. *)
Lemma find_key_first origLines k origIdx i :
  (origIdx <= i < origIdx + 20)%nat -> (i < length origLines)%nat ->
  key_at origLines k i ->
  (forall j, (origIdx <= j < i)%nat -> ~ key_at origLines k j) ->
  find_key origLines (Some k) origIdx 20 origIdx = Some i.
Proof.
  intros Hi Hlen Hk Hfirst.
  destruct (find_key origLines (Some k) origIdx 20 origIdx) as [j|] eqn:E.
  - apply find_key_Some in E as (Hj & _ & _ & (k' & [= <-] & Hkj) & Hmin).
    f_equal. destruct (Nat.lt_trichotomy i j) as [Hlt|[->|Hlt]]; [|done|].
    + exfalso. apply (Hmin i k); [lia|done|done].
    + exfalso. apply (Hfirst j); [lia|done].
  - exfalso. apply (find_key_None _ _ _ _ _ E i k); [lia|done|lia|done|done].
Qed.

Lemma loop_body_cases origLines mapping origIdx parsedIdx line :
  loop_body origLines (mapping, origIdx) parsedIdx line = (mapping, origIdx) \/
  exists i, (origIdx <= i)%nat /\
    loop_body origLines (mapping, origIdx) parsedIdx line
    = (<[S parsedIdx := S i]> mapping, S i).
Proof.
  unfold loop_body.
  destruct (find_key _ _ _ _ _) as [i|] eqn:E; [|by left].
  right. exists i. split; [|done].
  apply find_key_Some in E. lia.
Qed.

Lemma loop_body_inv origLines st parsedIdx line :
  line_map_inv st parsedIdx ->
  line_map_inv (loop_body origLines st parsedIdx line) (S parsedIdx).
Proof.
  destruct st as [mapping origIdx]. intros [Hdom Hmono].
  destruct (loop_body_cases origLines mapping origIdx parsedIdx line)
    as [->|(i & Hi & ->)]; unfold line_map_inv; simpl in *.
  - split; [|done]. intros a x Hax. apply Hdom in Hax. lia.
  - split.
    + intros a x. rewrite lookup_insert. case_decide.
      * intros [= <-]. lia.
      * intros Hax. apply Hdom in Hax. lia.
    + intros a b x y Hab. rewrite !lookup_insert.
      repeat case_decide; intros Hax Hby; simplify_eq.
      * lia.
      * apply Hdom in Hby. lia.
      * apply Hdom in Hax. lia.
      * by apply (Hmono a b).
Qed.

Lemma loop_inv origLines parsedLines : forall parsedIdx st,
  line_map_inv st parsedIdx ->
  line_map_inv (loop origLines parsedLines parsedIdx st)
    (parsedIdx + length parsedLines).
Proof.
  induction parsedLines as [|line rest IH]; intros parsedIdx st Hinv; simpl.
  - by rewrite Nat.add_0_r.
  - replace (parsedIdx + S (length rest))%nat
      with (S parsedIdx + length rest)%nat by lia.
    apply IH. by apply loop_body_inv.
Qed.

Lemma buildLineMapping_inv originalStr parsedStr :
  exists origIdx,
    line_map_inv (buildLineMapping originalStr parsedStr, origIdx)
      (length (split_lines parsedStr)).
Proof.
  unfold buildLineMapping.
  pose proof (loop_inv (split_lines originalStr) (split_lines parsedStr) 0 (∅, 0%nat))
    as H.
  destruct (loop _ _ _ _) as [m o]. exists o. apply H.
  split; intros *; by rewrite ?lookup_empty.
Qed.

(** The entries of the lines already visited are final. *)
Lemma loop_body_keeps origLines st parsedIdx line a :
  (a <= parsedIdx)%nat ->
  (loop_body origLines st parsedIdx line).1 !! a = st.1 !! a.
Proof.
  destruct st as [mapping origIdx]. intros Ha.
  destruct (loop_body_cases origLines mapping origIdx parsedIdx line)
    as [->|(i & Hi & ->)]; simpl; [done|].
  apply lookup_insert_ne. lia.
Qed.

Lemma loop_keeps origLines parsedLines : forall parsedIdx st a,
  (a <= parsedIdx)%nat ->
  (loop origLines parsedLines parsedIdx st).1 !! a = st.1 !! a.
Proof.
  induction parsedLines as [|line rest IH]; intros parsedIdx st a Ha; simpl.
  - done.
  - rewrite IH by lia. by apply loop_body_keeps.
Qed.

End LineMap_facts.

(** ** The resolver on one stack *)

Module Stack_facts.
Import Object_facts.
















End Stack_facts.

(** * The claims *)

(** ** The resolver *)

















(** ** The line-correspondence builder *)

(** C6, as stated, fails: a key is found in a line that has no leading
    key.  The second line of the text is an array element, a string with a
    quoted word and a colon inside; the pattern is found inside it and the
    line is mapped. *)
Lemma key_found_inside_line :
  JSON.parse quoted_word_text = Normal (JArray [JString (js "say 'hi': there")]) /\
  resolve (JArray [JString (js "say 'hi': there")]) = JArray [JString (js "say 'hi': there")] /\
  leading_key (trim (js "  'say \'hi\': there'")) = None /\
  match_key (trim (js "  'say \'hi\': there'")) = Some (js "hi" ++ [Ch.BACKSLASH]) /\
  buildLineMapping quoted_word_text quoted_word_text !! 2%nat = Some 2%nat.
Proof.
  repeat split; vm_compute; reflexivity.
Qed.

(** C6, amended: the key of a line is found where the pattern (a quote, one
    or more code units other than the quote, a quote, a colon) first occurs
    in the trimmed line, at its head or further in; there is no key exactly
    when the pattern occurs nowhere.  A line without a key leaves the map
    and the cursor as they are.  When the first original line of the window
    with the same key has index [i], the line is mapped to [i + 1] and the
    cursor moves to [i + 1]; no later search goes back before the cursor,
    and the entry is final. *)
Theorem loop_body_matching :
  (forall line k, leading_key (trim line) = Some k -> match_key (trim line) = Some k) /\
  (forall line k, match_key (trim line) = Some k ->
     exists pre, key_pattern (trim line) pre k /\
       forall pre' k', key_pattern (trim line) pre' k' -> (length pre <= length pre')%nat) /\
  (forall line, match_key (trim line) = None <->
     forall pre k, ~ key_pattern (trim line) pre k) /\
  (forall origLines mapping origIdx parsedIdx line,
     match_key (trim line) = None ->
     loop_body origLines (mapping, origIdx) parsedIdx line = (mapping, origIdx)) /\
  (forall origLines mapping origIdx parsedIdx line k i,
     match_key (trim line) = Some k ->
     (origIdx <= i < origIdx + 20)%nat -> (i < length origLines)%nat ->
     key_at origLines k i ->
     (forall j, (origIdx <= j < i)%nat -> ~ key_at origLines k j) ->
     loop_body origLines (mapping, origIdx) parsedIdx line
     = (<[S parsedIdx := S i]> mapping, S i)) /\
  (forall origLines parsedKey origIdx i,
     find_key origLines parsedKey origIdx 20 origIdx = Some i -> (origIdx <= i)%nat) /\
  (forall origLines parsedLines parsedIdx st a,
     (a <= parsedIdx)%nat ->
     (loop origLines parsedLines parsedIdx st).1 !! a = st.1 !! a).
Proof.
  split; [intros line k; apply Key_facts.leading_key_match_key|].
  split; [intros line k; apply Key_facts.match_key_leftmost|].
  split; [|split; [|split; [|split]]].
  - intros line. split.
    + intros Hnone pre k. by apply Key_facts.match_key_None.
    + intros Hno. destruct (match_key (trim line)) as [k|] eqn:Hk; [|done].
      apply Key_facts.match_key_Some in Hk as [pre Hpre].
      by destruct (Hno pre k).
  - intros origLines mapping origIdx parsedIdx line Hk.
    unfold loop_body. rewrite Hk.
    destruct (find_key _ _ _ _ _) as [i|] eqn:E; [|done].
    apply LineMap_facts.find_key_Some in E as (_ & _ & _ & (k & Hk' & _) & _).
    done.
  - intros origLines mapping origIdx parsedIdx line k i Hk Hi Hlen Hat Hfirst.
    unfold loop_body. rewrite Hk.
    by rewrite (LineMap_facts.find_key_first origLines k origIdx i).
  - intros origLines parsedKey origIdx i E.
    apply LineMap_facts.find_key_Some in E. lia.
  - apply LineMap_facts.loop_keeps.
Qed.

Lemma loop_body_matching_witness :
  match_key (trim (js "  'b': {")) = Some (js "b") /\
  key_at (split_lines spec_original) (js "b") 2 /\
  loop_body (split_lines spec_original) (<[2%nat := 2%nat]> ∅, 2%nat) 2 (js "  'b': {")
  = (<[3%nat := 3%nat]> (<[2%nat := 2%nat]> ∅), 3%nat).
Proof.
  assert (Hk : match_key (trim (js "  'b': {")) = Some (js "b"))
    by (vm_compute; reflexivity).
  assert (Hat : key_at (split_lines spec_original) (js "b") 2)
    by (vm_compute; reflexivity).
  split; [exact Hk|]. split; [exact Hat|].
  apply (proj1 (proj2 (proj2 (proj2 (proj2 loop_body_matching))))
           (split_lines spec_original) (<[2%nat := 2%nat]> ∅) 2%nat 2%nat
           (js "  'b': {") (js "b") 2%nat Hk).
  - lia.
  - vm_compute. lia.
  - exact Hat.
  - intros j Hj. lia.
Defined.

(** C7: the search window.  The search looks at the original lines from the
    cursor on, at most twenty of them; when none of those has the key of
    the resolved line, the line gets no entry and the cursor stays. *)
Theorem search_window_bounded :
  (forall origLines parsedKey origIdx i,
     find_key origLines parsedKey origIdx 20 origIdx = Some i ->
     (origIdx <= i < origIdx + 20)%nat /\ (i < length origLines)%nat) /\
  (forall origLines mapping origIdx parsedIdx line k,
     match_key (trim line) = Some k ->
     (forall i, (origIdx <= i < origIdx + 20)%nat -> (i < length origLines)%nat ->
        ~ key_at origLines k i) ->
     loop_body origLines (mapping, origIdx) parsedIdx line = (mapping, origIdx)).
Proof.
  split.
  - intros origLines parsedKey origIdx i E.
    apply LineMap_facts.find_key_Some in E. lia.
  - intros origLines mapping origIdx parsedIdx line k Hk Hnone.
    unfold loop_body. rewrite Hk.
    destruct (find_key _ _ _ _ _) as [i|] eqn:E; [|done].
    apply LineMap_facts.find_key_Some in E
      as (Hi & Hlen & Hwin & (k' & [= <-] & Hat) & _).
    exfalso. apply (Hnone i); [lia|done|done].
Qed.

Lemma search_window_bounded_witness :
  match_key (trim (js "    'z': 1")) = Some (js "z") /\
  key_at (split_lines far_key_original) (js "z") 21 /\
  loop_body (split_lines far_key_original) (∅, 0%nat) 22 (js "    'z': 1") = (∅, 0%nat) /\
  buildLineMapping far_key_original far_key_resolved = ∅.
Proof.
  assert (Hk : match_key (trim (js "    'z': 1")) = Some (js "z"))
    by (vm_compute; reflexivity).
  split; [exact Hk|].
  split; [vm_compute; reflexivity|].
  split; [|vm_compute; reflexivity].
  apply (proj2 search_window_bounded (split_lines far_key_original) ∅ 0%nat 22%nat
           (js "    'z': 1") (js "z") Hk).
  intros i Hi Hlen.
  do 20 (destruct i as [|i]; [vm_compute; discriminate|]). lia.
Defined.

(** C8: the line map is monotone.  Of two mapped resolved lines, the later
    one is mapped to an original line that is not before the other's. *)
Theorem line_map_monotone (originalStr parsedStr : list N) (a b x y : nat) :
  (a < b)%nat ->
  buildLineMapping originalStr parsedStr !! a = Some x ->
  buildLineMapping originalStr parsedStr !! b = Some y ->
  (x <= y)%nat.
Proof.
  intros Hab Ha Hb.
  destruct (LineMap_facts.buildLineMapping_inv originalStr parsedStr)
    as (origIdx & _ & Hmono).
  apply Nat.lt_le_incl. by apply (Hmono a b).
Qed.

Lemma line_map_monotone_witness :
  (2 < 3)%nat /\
  buildLineMapping spec_original spec_resolved !! 2%nat = Some 2%nat /\
  buildLineMapping spec_original spec_resolved !! 3%nat = Some 3%nat /\
  (2 <= 3)%nat.
Proof.
  assert (Ha : buildLineMapping spec_original spec_resolved !! 2%nat = Some 2%nat)
    by (vm_compute; reflexivity).
  assert (Hb : buildLineMapping spec_original spec_resolved !! 3%nat = Some 3%nat)
    by (vm_compute; reflexivity).
  assert (Hab : (2 < 3)%nat) by lia.
  split; [exact Hab|]. split; [exact Ha|]. split; [exact Hb|].
  exact (line_map_monotone spec_original spec_resolved 2 3 2 3 Hab Ha Hb).
Defined.

(** C9: a parse failure leaves the output as it was.  When the input is not
    JSON, the state keeps its resolved value and takes the text of the
    exception, a [SyntaxError], as its error; over any sequence of inputs
    none of which is JSON the resolved value never changes; the resolved
    value changes only when the input parsed and was resolved; and an input
    that is JSON replaces it by its resolution and clears the error. *)
Theorem parse_failure_keeps_output :
  (forall message stack input st e,
     JSON.parse input = Throw e ->
     e = SyntaxError /\
     handleParse message stack input st
     = {| parsed := parsed st; error := message SyntaxError |}) /\
  (forall message stack inputs st,
     Forall (fun input => exists e, JSON.parse input = Throw e) inputs ->
     parsed (run message stack inputs st) = parsed st) /\
  (forall message stack input st,
     parsed (handleParse message stack input st) <> parsed st ->
     exists v, JSON.parse input = Normal v /\
       parseNestedJson stack v = Normal (parsed (handleParse message stack input st))) /\
  (forall message stack input st v,
     JSON.parse input = Normal v -> (size v < stack)%nat ->
     handleParse message stack input st = {| parsed := resolve v; error := [] |}).
Proof.
  assert (Hfail : forall message stack input st e,
            JSON.parse input = Throw e ->
            e = SyntaxError /\
            handleParse message stack input st
            = {| parsed := parsed st; error := message SyntaxError |}).
  { intros message stack input st e He.
    assert (e = SyntaxError) as ->.
    { unfold JSON.parse in He. repeat case_match; congruence. }
    split; [done|]. unfold handleParse. by rewrite He. }
  split; [exact Hfail|]. split; [|split].
  - intros message stack inputs. unfold run.
    induction inputs as [|input inputs IH]; intros st Hall; simpl; [done|].
    apply Forall_cons in Hall as [[e He] Hall].
    rewrite IH by done.
    destruct (Hfail message stack input st e He) as [_ ->]. done.
  - intros message stack input st. unfold handleParse.
    destruct (JSON.parse input) as [v|e]; simpl; [|done].
    destruct (parseNestedJson stack v) as [r|e] eqn:Er; simpl; [|done].
    intros _. by exists v.
  - intros message stack input st v Hv Hs.
    unfold handleParse. rewrite Hv. simpl.
    by rewrite parseNestedJson_enough.
Qed.

Lemma parse_failure_keeps_output_witness :
  JSON.parse (js "{'data': ") = Throw SyntaxError /\
  handleParse engine_message 100 (js "{'data': ")
    {| parsed := john_resolved; error := [] |}
  = {| parsed := john_resolved; error := js "Unexpected token in JSON" |}.
Proof.
  assert (H : JSON.parse (js "{'data': ") = Throw SyntaxError)
    by (vm_compute; reflexivity).
  split; [exact H|].
  exact (proj2 (proj1 parse_failure_keeps_output engine_message 100%nat _
                  {| parsed := john_resolved; error := [] |} _ H)).
Defined.

(** C10: the line map is injective and grows strictly.  Of two mapped
    resolved lines, the later one is mapped to a later original line; so
    no original line is the image of two resolved lines. *)
Theorem line_map_strictly_increasing :
  (forall originalStr parsedStr a b x y,
     (a < b)%nat ->
     buildLineMapping originalStr parsedStr !! a = Some x ->
     buildLineMapping originalStr parsedStr !! b = Some y ->
     (x < y)%nat) /\
  (forall originalStr parsedStr a b x,
     buildLineMapping originalStr parsedStr !! a = Some x ->
     buildLineMapping originalStr parsedStr !! b = Some x ->
     a = b).
Proof.
  assert (Hstrict : forall originalStr parsedStr a b x y,
            (a < b)%nat ->
            buildLineMapping originalStr parsedStr !! a = Some x ->
            buildLineMapping originalStr parsedStr !! b = Some y ->
            (x < y)%nat).
  { intros originalStr parsedStr a b x y Hab Ha Hb.
    destruct (LineMap_facts.buildLineMapping_inv originalStr parsedStr)
      as (origIdx & _ & Hmono).
    by apply (Hmono a b). }
  split; [exact Hstrict|].
  intros originalStr parsedStr a b x Ha Hb.
  destruct (Nat.lt_trichotomy a b) as [Hlt|[->|Hlt]]; [|done|].
  - pose proof (Hstrict _ _ _ _ _ _ Hlt Ha Hb). lia.
  - pose proof (Hstrict _ _ _ _ _ _ Hlt Hb Ha). lia.
Qed.

Lemma line_map_strictly_increasing_witness :
  buildLineMapping spec_original spec_resolved !! 2%nat = Some 2%nat /\
  buildLineMapping spec_original spec_resolved !! 3%nat = Some 3%nat /\
  (2 < 3)%nat.
Proof.
  assert (Ha : buildLineMapping spec_original spec_resolved !! 2%nat = Some 2%nat)
    by (vm_compute; reflexivity).
  assert (Hb : buildLineMapping spec_original spec_resolved !! 3%nat = Some 3%nat)
    by (vm_compute; reflexivity).
  split; [exact Ha|]. split; [exact Hb|].
  refine (proj1 line_map_strictly_increasing spec_original spec_resolved 2 3 2 3 _ Ha Hb)%nat.
  lia.
Defined.

(** * Further properties *)

(** ** More on the line map *)

Module LineMap_more.
Import LineMap_facts.

(** What one turn of the outer loop does. *)
Lemma loop_body_entry origLines mapping origIdx parsedIdx line :
  loop_body origLines (mapping, origIdx) parsedIdx line = (mapping, origIdx) \/
  exists i k,
    loop_body origLines (mapping, origIdx) parsedIdx line
    = (<[S parsedIdx := S i]> mapping, S i) /\
    line_key line = Some k /\ key_at origLines k i /\
    (origIdx <= i < origIdx + 20)%nat /\ (i < length origLines)%nat.
Proof.
  unfold loop_body, line_key.
  destruct (find_key _ _ _ _ _) as [i|] eqn:E; [|by left].
  right. apply find_key_Some in E as (Hi & Hlen & Hwin & (k & Hk & Hat) & _).
  exists i, k. repeat split; try done; lia.
Qed.
Lemma loop_body_sound origLines parsedLines parsedIdx line st :
  nth_error parsedLines parsedIdx = Some line ->
  entries_sound origLines parsedLines st.1 ->
  entries_sound origLines parsedLines (loop_body origLines st parsedIdx line).1.
Proof.
  destruct st as [mapping origIdx]. intros Hline Hs.
  destruct (loop_body_entry origLines mapping origIdx parsedIdx line)
    as [->|(i & k & -> & Hk & Hat & Hwin & Hlen)]; [exact Hs|].
  intros a x. unfold fst. rewrite lookup_insert. case_decide as Ha.
  - intros [= <-]. subst a.
    assert (parsedIdx < length parsedLines)%nat
      by (apply nth_error_Some; congruence).
    split; [lia|]. split; [lia|]. exists k.
    replace (S parsedIdx - 1)%nat with parsedIdx by lia.
    replace (S i - 1)%nat with i by lia.
    rewrite (nth_error_nth _ _ _ Hline). split; [exact Hk|exact Hat].
  - apply Hs.
Qed.
Lemma loop_sound origLines parsedLines rest : forall parsedIdx st,
  (forall j line, nth_error rest j = Some line ->
     nth_error parsedLines (parsedIdx + j) = Some line) ->
  entries_sound origLines parsedLines st.1 ->
  entries_sound origLines parsedLines (loop origLines rest parsedIdx st).1.
Proof.
  induction rest as [|line rest IH]; intros parsedIdx st Hrest Hs; simpl; [done|].
  apply IH.
  - intros j l Hj. replace (S parsedIdx + j)%nat with (parsedIdx + S j)%nat by lia.
    by apply Hrest.
  - apply loop_body_sound; [|done].
    rewrite <- (Nat.add_0_r parsedIdx). by apply Hrest.
Qed.

(** When none of the twenty lines from the cursor on has a key, nothing
    is mapped any more. *)
Lemma loop_body_starved origLines st parsedIdx line :
  (forall j, (st.2 <= j < st.2 + 20)%nat -> (j < length origLines)%nat ->
     line_key (nth j origLines []) = None) ->
  loop_body origLines st parsedIdx line = st.
Proof.
  destruct st as [mapping origIdx]. intros Hno.
  destruct (loop_body_entry origLines mapping origIdx parsedIdx line)
    as [->|(i & k & _ & _ & Hat & Hwin & Hlen)]; [done|].
  unfold key_at in Hat. specialize (Hno i Hwin Hlen).
  unfold line_key in Hno. congruence.
Qed.

Lemma loop_starved origLines parsedLines : forall parsedIdx st,
  (forall j, (st.2 <= j < st.2 + 20)%nat -> (j < length origLines)%nat ->
     line_key (nth j origLines []) = None) ->
  loop origLines parsedLines parsedIdx st = st.
Proof.
  induction parsedLines as [|line rest IH]; intros parsedIdx st Hno; simpl; [done|].
  rewrite loop_body_starved by done. by apply IH.
Qed.

(** The loops read the lines through their keys only. *)
Lemma find_key_ext origLines origLines' parsedKey origIdx n : forall i,
  map line_key origLines = map line_key origLines' ->
  find_key origLines parsedKey origIdx n i = find_key origLines' parsedKey origIdx n i.
Proof.
  intros i Hk. revert i. induction n as [|n IH]; intros i; [done|].
  assert (Hlen : length origLines = length origLines')
    by (rewrite <- (length_map line_key origLines), Hk; apply length_map).
  assert (Hi : match_key (trim (nth i origLines [])) = match_key (trim (nth i origLines' []))).
  { change (line_key (nth i origLines []) = line_key (nth i origLines' [])).
    rewrite <- !(map_nth line_key). by rewrite Hk. }
  cbn [find_key]. rewrite Hlen, Hi, !IH. done.
Qed.

Lemma loop_body_ext origLines origLines' st parsedIdx line line' :
  map line_key origLines = map line_key origLines' ->
  line_key line = line_key line' ->
  loop_body origLines st parsedIdx line = loop_body origLines' st parsedIdx line'.
Proof.
  intros Ho Hline. destruct st as [mapping origIdx].
  unfold loop_body. unfold line_key in Hline. rewrite Hline.
  by rewrite (find_key_ext origLines origLines').
Qed.

Lemma loop_ext origLines origLines' parsedLines : forall parsedLines' parsedIdx st,
  map line_key origLines = map line_key origLines' ->
  map line_key parsedLines = map line_key parsedLines' ->
  loop origLines parsedLines parsedIdx st = loop origLines' parsedLines' parsedIdx st.
Proof.
  induction parsedLines as [|line rest IH];
    intros [|line' rest'] parsedIdx st Ho Hp; try done.
  injection Hp as Hline Hrest. simpl.
  rewrite (loop_body_ext origLines origLines' st parsedIdx line line') by done.
  by apply IH.
Qed.

Lemma loop_body_gap origLines st parsedIdx line :
  line_map_inv st parsedIdx -> gap_inv st ->
  gap_inv (loop_body origLines st parsedIdx line).
Proof.
  destruct st as [mapping origIdx]. intros [Hdom _] [Hcur Hgap].
  destruct (loop_body_entry origLines mapping origIdx parsedIdx line)
    as [->|(i & k & -> & _ & _ & Hwin & _)]; [done|].
  unfold gap_inv in *. cbn [fst snd] in *. split.
  - right. exists (S parsedIdx). apply lookup_insert_eq.
  - intros a x. rewrite lookup_insert. case_decide as Ha.
    + intros [= <-]. subst a. destruct Hcur as [->|[a0 Ha0]]; [left; lia|].
      right. exists a0, origIdx. pose proof (Hdom _ _ Ha0) as [? ?].
      split; [lia|]. split; [|lia]. rewrite lookup_insert_ne by lia. done.
    + intros Hax. destruct (Hgap a x Hax) as [?|(a' & x' & Hlt & Ha' & Hx)];
        [by left|].
      right. exists a', x'. split; [done|]. split; [|done].
      pose proof (Hdom _ _ Ha') as [? ?]. rewrite lookup_insert_ne by lia. done.
Qed.

Lemma loop_gap origLines parsedLines : forall parsedIdx st,
  line_map_inv st parsedIdx -> gap_inv st ->
  gap_inv (loop origLines parsedLines parsedIdx st).
Proof.
  induction parsedLines as [|line rest IH]; intros parsedIdx st Hinv Hgap; simpl; [done|].
  apply IH; [by apply loop_body_inv|by apply loop_body_gap].
Qed.

Lemma loop_body_keyless origLines st parsedIdx line :
  line_key line = None -> loop_body origLines st parsedIdx line = st.
Proof.
  destruct st as [mapping origIdx]. intros Hk.
  destruct (loop_body_entry origLines mapping origIdx parsedIdx line)
    as [->|(i & k & _ & Hk' & _)]; [done|congruence].
Qed.

Lemma loop_body_self lines st parsedIdx line k :
  windows_keyed lines ->
  nth_error lines parsedIdx = Some line -> line_key line = Some k ->
  (st.2 <= parsedIdx)%nat ->
  (forall j, (st.2 <= j < parsedIdx)%nat -> line_key (nth j lines []) = None) ->
  loop_body lines st parsedIdx line = (<[S parsedIdx := S parsedIdx]> st.1, S parsedIdx).
Proof.
  destruct st as [mapping origIdx]. cbn [fst snd]. intros Hwin Hline Hk Hle Hno.
  assert (Hlen : (parsedIdx < length lines)%nat) by (apply nth_error_Some; congruence).
  assert (Hnth : nth parsedIdx lines [] = line) by (by apply nth_error_nth).
  unfold loop_body. unfold line_key in Hk. rewrite Hk.
  rewrite (find_key_first lines k origIdx parsedIdx); [done| |done| |].
  - split; [done|].
    destruct (Nat.lt_ge_cases parsedIdx (origIdx + 20)) as [|Hge]; [done|].
    destruct (Hwin origIdx) as (j & Hj & Hkey); [lia|].
    exfalso. apply Hkey, Hno. lia.
  - unfold key_at. by rewrite Hnth.
  - intros j Hj. unfold key_at. specialize (Hno j Hj).
    unfold line_key in Hno. congruence.
Qed.

Lemma loop_identity lines rest : forall parsedIdx st,
  windows_keyed lines ->
  (forall j line, nth_error rest j = Some line ->
     nth_error lines (parsedIdx + j) = Some line) ->
  (st.2 <= parsedIdx)%nat ->
  (forall j, (st.2 <= j < parsedIdx)%nat -> line_key (nth j lines []) = None) ->
  (forall a, (parsedIdx < a)%nat -> st.1 !! a = None) ->
  forall q, (parsedIdx <= q < parsedIdx + length rest)%nat ->
    (loop lines rest parsedIdx st).1 !! S q
    = match line_key (nth q lines []) with
      | Some _ => Some (S q)
      | None => None
      end.
Proof.
  induction rest as [|line rest IH];
    intros parsedIdx st Hwin Hrest Hle Hno Hdom q Hq; simpl in Hq; [lia|].
  assert (Hline : nth_error lines parsedIdx = Some line)
    by (rewrite <- (Nat.add_0_r parsedIdx); by apply Hrest).
  assert (Hnth : nth parsedIdx lines [] = line) by (by apply nth_error_nth).
  assert (Hrest' : forall j l, nth_error rest j = Some l ->
            nth_error lines (S parsedIdx + j) = Some l).
  { intros j l Hj. replace (S parsedIdx + j)%nat with (parsedIdx + S j)%nat by lia.
    by apply Hrest. }
  simpl.
  destruct (line_key line) as [k|] eqn:Hk.
  - rewrite (loop_body_self lines st parsedIdx line k) by done.
    destruct (decide (q = parsedIdx)) as [->|Hne].
    + rewrite loop_keeps by done. cbn [fst]. rewrite lookup_insert_eq.
      by rewrite Hnth, Hk.
    + apply IH; cbn [fst snd]; try done; try lia.
      intros a Ha. rewrite lookup_insert_ne by lia. apply Hdom. lia.
  - rewrite (loop_body_keyless lines st parsedIdx line) by done.
    destruct (decide (q = parsedIdx)) as [->|Hne].
    + rewrite loop_keeps by done. rewrite Hdom by lia. by rewrite Hnth, Hk.
    + apply IH; try done; try lia.
      * intros j Hj. destruct (decide (j = parsedIdx)) as [->|];
          [by rewrite Hnth|apply Hno; lia].
      * intros a Ha. apply Hdom. lia.
Qed.

End LineMap_more.

(** ** More on the resolver *)

Module Stack_more.
Import Object_facts Stack_facts.

(** *** Creating properties keeps related objects related *)

Section Related.
Variable R : JsonValue -> JsonValue -> Prop.





End Related.


End Stack_more.

(** ** The application, the gutter and the resize handle *)

Module App_more.

Lemma blank_not_JSON s :
  forallb JSON.is_ws s = true -> JSON.parse s = Throw SyntaxError.
Proof.
  intros Hs. unfold JSON.parse.
  assert (JSON.skip_ws s = []) as ->; [|done].
  induction s as [|c s IH]; simpl in *; [done|].
  apply andb_true_iff in Hs as [-> Hs]. by apply IH.
Qed.

Lemma parse_throws s e : JSON.parse s = Throw e -> e = SyntaxError.
Proof. unfold JSON.parse. repeat case_match; congruence. Qed.

Lemma run_app message stack inputs1 inputs2 st :
  run message stack (inputs1 ++ inputs2) st
  = run message stack inputs2 (run message stack inputs1 st).
Proof. unfold run. apply fold_left_app. Qed.

Lemma run_failures message stack inputs : forall st,
  Forall (fun input => exists e, JSON.parse input = Throw e) inputs ->
  inputs <> [] ->
  run message stack inputs st
  = {| parsed := parsed st; error := message SyntaxError |}.
Proof.
  induction inputs as [|input inputs IH]; intros st Hall Hne; [done|].
  apply Forall_cons in Hall as [[e He] Hall].
  pose proof (parse_throws _ _ He) as ->.
  change (run message stack (input :: inputs) st)
    with (run message stack inputs (handleParse message stack input st)).
  assert (Hstep : handleParse message stack input st
                  = {| parsed := parsed st; error := message SyntaxError |})
    by (unfold handleParse; by rewrite He).
  rewrite Hstep. destruct inputs as [|input' inputs']; [done|].
  by rewrite IH.
Qed.

End App_more.

Module Gutter_facts.
Import Object_facts LineMap_facts.

Lemma to_digits_acc fuel : forall n acc,
  to_digits fuel n acc = to_digits fuel n [] ++ acc.
Proof.
  induction fuel as [|fuel IH]; intros n acc; cbn [to_digits]; [done|].
  destruct (n <? 10)%nat; [done|].
  rewrite (IH _ [_]), (IH _ (_ :: acc)). by rewrite <- app_assoc.
Qed.

Lemma to_digits_value fuel : forall n,
  (n < fuel)%nat ->
  digits_value (to_digits fuel n []) = N.of_nat n /\
  forallb is_digit (to_digits fuel n []) = true.
Proof.
  induction fuel as [|fuel IH]; intros n Hn; [lia|]. cbn [to_digits].
  pose proof (Nat.mod_upper_bound n 10 ltac:(lia)) as Hmod.
  assert (Hd : is_digit (Ch.ZERO + N.of_nat (n mod 10)) = true).
  { apply is_digit_spec. unfold Ch.ZERO. lia. }
  destruct (n <? 10)%nat eqn:E.
  - apply Nat.ltb_lt in E. rewrite Nat.mod_small by done. split.
    + unfold digits_value, Ch.ZERO. cbn [fold_left]. lia.
    + cbn [forallb]. rewrite Nat.mod_small in Hd by done. by rewrite Hd.
  - apply Nat.ltb_ge in E. rewrite to_digits_acc.
    pose proof (Nat.div_mod_eq n 10) as Hdm.
    destruct (IH (n / 10)%nat) as [Hv Hds]; [lia|]. split.
    + rewrite digits_value_snoc, Hv. unfold Ch.ZERO. lia.
    + rewrite forallb_app, Hds. cbn [forallb]. by rewrite Hd.
Qed.

(** A line number reads back from its text. *)
Lemma Number_toString_value n :
  digits_value (Number_toString n) = N.of_nat n.
Proof. apply to_digits_value. lia. Qed.

Lemma Number_toString_inj a b : Number_toString a = Number_toString b -> a = b.
Proof.
  intros H. apply (f_equal digits_value) in H.
  rewrite !Number_toString_value in H. lia.
Qed.

End Gutter_facts.

Module Resize_facts.

(** The comparison of two Numbers, read the other way round. *)
Lemma SFcompare_antisym a b :
  SFcompare b a = match SFcompare a b with
                  | Some c => Some (CompOpp c)
                  | None => None
                  end.
Proof.
  destruct a as [[]|[]| |[] m1 e1], b as [[]|[]| |[] m2 e2]; simpl; try done;
    f_equal; rewrite (Z.compare_antisym e1 e2);
    pose proof (Pos.compare_cont_antisym m1 m2 Eq) as Ha; simpl in Ha;
    destruct (e1 ?= e2)%Z; simpl; try done;
    rewrite <- Ha; by destruct (Pos.compare_cont Eq m1 m2).
Qed.

Lemma SFcompare_finite_None m e v :
  SFcompare (S754_finite false m e) v = None -> v = S754_nan.
Proof. destruct v as [[]|[]| |[] ? ?]; simpl; done. Qed.

(** The ratio set by the handler, from the scaled quotient. *)
Lemma clamp_cases v :
  let lo := Number_of_Z 20 in
  let hi := Number_of_Z 80 in
  let r := Math_min hi (Math_max lo v) in
  match SFcompare lo v with
  | None => v = S754_nan /\ r = S754_nan
  | Some Lt =>
      match SFcompare hi v with
      | Some Gt => r = v
      | _ => r = hi
      end
  | Some _ => r = lo
  end.
Proof.
  intros lo hi r. subst r. unfold Math_max.
  destruct (SFcompare lo v) as [[]|] eqn:Elo.
  - reflexivity.
  - unfold Math_min.
    destruct (SFcompare hi v) as [[]|] eqn:Ehi; try reflexivity.
    apply SFcompare_finite_None in Ehi. subst v. discriminate Elo.
  - reflexivity.
  - apply SFcompare_finite_None in Elo. subst v. split; reflexivity.
Qed.

End Resize_facts.

(** ** What the resolver throws *)

Module Overflow_facts.



End Overflow_facts.

(** * Further results *)

(** ** The line map *)

(** The whole list is what is left of it at index 0. *)
Lemma suffix_at_0 (lines : list (list N)) :
  forall j line, nth_error lines j = Some line -> nth_error lines (0 + j) = Some line.
Proof. done. Qed.

(** X1: every entry of the line map relates two lines that exist and have
    the same key. *)
Theorem line_map_sound (originalStr parsedStr : list N) (a x : nat) :
  buildLineMapping originalStr parsedStr !! a = Some x ->
  (1 <= a <= length (split_lines parsedStr))%nat /\
  (1 <= x <= length (split_lines originalStr))%nat /\
  exists k, line_key (nth (a - 1) (split_lines parsedStr) []) = Some k /\
            line_key (nth (x - 1) (split_lines originalStr) []) = Some k.
Proof.
  unfold buildLineMapping.
  apply (LineMap_more.loop_sound (split_lines originalStr) (split_lines parsedStr)
           (split_lines parsedStr) 0 (∅, 0%nat)).
  - apply suffix_at_0.
  - intros a' x'. cbn [fst]. by rewrite lookup_empty.
Qed.

Lemma line_map_sound_witness :
  buildLineMapping spec_original spec_resolved !! 3%nat = Some 3%nat /\
  exists k, line_key (nth (3 - 1) (split_lines spec_resolved) []) = Some k /\
            line_key (nth (3 - 1) (split_lines spec_original) []) = Some k.
Proof.
  assert (H : buildLineMapping spec_original spec_resolved !! 3%nat = Some 3%nat)
    by (vm_compute; reflexivity).
  split; [exact H|].
  exact (proj2 (proj2 (line_map_sound spec_original spec_resolved 3 3 H))).
Defined.

(** X2: the map never jumps: an entry is at most twenty original lines
    after the entry of an earlier resolved line, or among the first twenty
    original lines. *)
Theorem line_map_gaps (originalStr parsedStr : list N) (a x : nat) :
  buildLineMapping originalStr parsedStr !! a = Some x ->
  (x <= 20)%nat \/
  exists a' x', (a' < a)%nat /\
    buildLineMapping originalStr parsedStr !! a' = Some x' /\
    (x' < x <= x' + 20)%nat.
Proof.
  unfold buildLineMapping.
  assert (Hgap : gap_inv (loop (split_lines originalStr) (split_lines parsedStr) 0 (∅, 0%nat))).
  { apply LineMap_more.loop_gap.
    - split; intros *; cbn [fst]; by rewrite ?lookup_empty.
    - split; [by left|]. intros *. cbn [fst]. by rewrite lookup_empty. }
  destruct Hgap as [_ Hgap]. apply Hgap.
Qed.

Lemma line_map_gaps_witness :
  buildLineMapping spec_original spec_resolved !! 3%nat = Some 3%nat /\
  ((3 <= 20)%nat \/
   exists a' x', (a' < 3)%nat /\
     buildLineMapping spec_original spec_resolved !! a' = Some x' /\
     (x' < 3 <= x' + 20)%nat).
Proof.
  assert (H : buildLineMapping spec_original spec_resolved !! 3%nat = Some 3%nat)
    by (vm_compute; reflexivity).
  split; [exact H|].
  exact (line_map_gaps spec_original spec_resolved 3 3 H).
Defined.

(** X3: a cursor followed by twenty original lines without a key is stuck:
    no later resolved line is mapped and the cursor stays.  So a text whose
    first twenty lines have no key gets an empty map. *)
Theorem line_map_starved :
  (forall origLines parsedLines parsedIdx mapping origIdx,
     (forall j, (origIdx <= j < origIdx + 20)%nat -> (j < length origLines)%nat ->
        line_key (nth j origLines []) = None) ->
     loop origLines parsedLines parsedIdx (mapping, origIdx) = (mapping, origIdx)) /\
  (forall originalStr parsedStr,
     (forall j, (j < 20)%nat -> (j < length (split_lines originalStr))%nat ->
        line_key (nth j (split_lines originalStr) []) = None) ->
     buildLineMapping originalStr parsedStr = ∅).
Proof.
  split.
  - intros origLines parsedLines parsedIdx mapping origIdx Hno.
    by apply (LineMap_more.loop_starved origLines parsedLines parsedIdx (mapping, origIdx)).
  - intros originalStr parsedStr Hno. unfold buildLineMapping.
    rewrite (LineMap_more.loop_starved _ _ _ (∅, 0%nat)); [done|].
    intros j Hj Hlen. apply Hno; [cbn [snd] in Hj; lia|done].
Qed.

Lemma line_map_starved_witness :
  buildLineMapping far_key_original far_key_resolved = ∅.
Proof.
  apply (proj2 line_map_starved).
  intros j Hj Hlen.
  do 20 (destruct j as [|j]; [vm_compute; reflexivity|]). lia.
Defined.

(** X4: the builder reads each line through its key only: two pairs of
    texts whose lines have the same keys, line by line, get the same map.
    The indentation of either text does not matter. *)
Theorem line_map_reads_keys_only (originalStr originalStr' parsedStr parsedStr' : list N) :
  map line_key (split_lines originalStr) = map line_key (split_lines originalStr') ->
  map line_key (split_lines parsedStr) = map line_key (split_lines parsedStr') ->
  buildLineMapping originalStr parsedStr = buildLineMapping originalStr' parsedStr'.
Proof.
  intros Ho Hp. unfold buildLineMapping.
  by rewrite (LineMap_more.loop_ext _ (split_lines originalStr') _ (split_lines parsedStr')).
Qed.

Lemma line_map_reads_keys_only_witness :
  buildLineMapping spec_original spec_resolved
  = buildLineMapping spec_original_wide spec_resolved.
Proof.
  apply line_map_reads_keys_only; vm_compute; reflexivity.
Defined.

(** X5: a text against itself.  When any twenty consecutive lines of the
    text hold a key, every line with a key is mapped to itself and the
    lines without a key are not mapped. *)
Theorem line_map_identity (text : list N) (q : nat) :
  windows_keyed (split_lines text) ->
  (q < length (split_lines text))%nat ->
  buildLineMapping text text !! S q
  = match line_key (nth q (split_lines text) []) with
    | Some _ => Some (S q)
    | None => None
    end.
Proof.
  intros Hwin Hq. unfold buildLineMapping.
  apply (LineMap_more.loop_identity (split_lines text) (split_lines text) 0 (∅, 0%nat));
    cbn [fst snd]; try done; try lia.
Qed.

Lemma line_map_identity_witness :
  windows_keyed (split_lines keyed_text) /\
  buildLineMapping keyed_text keyed_text !! 22%nat = Some 22%nat.
Proof.
  assert (Hwin : windows_keyed (split_lines keyed_text)).
  { assert (Hlen : length (split_lines keyed_text) = 23%nat)
      by (vm_compute; reflexivity).
    intros i Hi. rewrite Hlen in Hi. exists (S i).
    split; [lia|].
    do 4 (destruct i as [|i]; [vm_compute; discriminate|]).
    lia. }
  split; [exact Hwin|].
  assert (Hq : (21 < length (split_lines keyed_text))%nat) by (vm_compute; lia).
  exact (line_map_identity keyed_text 21 Hwin Hq).
Defined.

(** ** The gutter, the resolver and the application *)

(** X6: the gutter.  On the map of the builder the label of a line is the
    decimal text of its original line when it is mapped and of its own
    number when it is not: no entry is falsy.  The number reads back from
    the label, so two mapped lines never carry the same label. *)
Theorem gutter_labels :
  (forall originalStr parsedStr lineNumber,
     lineNumbers (buildLineMapping originalStr parsedStr) lineNumber
     = Number_toString
         (default lineNumber (buildLineMapping originalStr parsedStr !! lineNumber))) /\
  (forall originalStr parsedStr lineNumber,
     digits_value (lineNumbers (buildLineMapping originalStr parsedStr) lineNumber)
     = N.of_nat (default lineNumber (buildLineMapping originalStr parsedStr !! lineNumber))) /\
  (forall originalStr parsedStr a b,
     is_Some (buildLineMapping originalStr parsedStr !! a) ->
     is_Some (buildLineMapping originalStr parsedStr !! b) ->
     lineNumbers (buildLineMapping originalStr parsedStr) a
     = lineNumbers (buildLineMapping originalStr parsedStr) b ->
     a = b).
Proof.
  assert (Hlabel : forall originalStr parsedStr lineNumber,
            lineNumbers (buildLineMapping originalStr parsedStr) lineNumber
            = Number_toString
                (default lineNumber (buildLineMapping originalStr parsedStr !! lineNumber))).
  { intros originalStr parsedStr lineNumber. unfold lineNumbers.
    destruct (LineMap_facts.buildLineMapping_inv originalStr parsedStr)
      as (origIdx & Hdom & _).
    destruct (buildLineMapping originalStr parsedStr !! lineNumber) as [x|] eqn:E;
      [|done].
    apply Hdom in E as [_ Hx]. cbn [snd] in Hx. simpl.
    destruct (x =? 0)%nat eqn:Ex; [apply Nat.eqb_eq in Ex; lia|done]. }
  split; [exact Hlabel|]. split.
  - intros. rewrite Hlabel. apply Gutter_facts.Number_toString_value.
  - intros originalStr parsedStr a b [x Ha] [y Hb]. rewrite !Hlabel, Ha, Hb. simpl.
    intros Heq. apply Gutter_facts.Number_toString_inj in Heq as <-.
    destruct (LineMap_facts.buildLineMapping_inv originalStr parsedStr)
      as (origIdx & _ & Hmono).
    destruct (Nat.lt_trichotomy a b) as [Hlt|[->|Hlt]]; [|done|].
    + pose proof (Hmono _ _ _ _ Hlt Ha Hb). lia.
    + pose proof (Hmono _ _ _ _ Hlt Hb Ha). lia.
Qed.

Lemma gutter_labels_witness :
  lineNumbers (buildLineMapping spec_original spec_resolved) 3 = js "3" /\
  lineNumbers (buildLineMapping spec_original spec_resolved) 4 = js "4".
Proof.
  split.
  - rewrite (proj1 gutter_labels). vm_compute. reflexivity.
  - rewrite (proj1 gutter_labels). vm_compute. reflexivity.
Defined.



(** X8: the last input that was resolved wins.  After any sequence of
    inputs, the resolved value is what the resolver returned, on the stack
    there is, for the last input that was JSON, and the error is empty
    exactly when no input came after it. *)
Theorem last_resolved_input_wins (message : Error -> list N) (stack : nat)
  (before after : list (list N)) (input : list N) (v r : JsonValue) (st : AppState) :
  JSON.parse input = Normal v -> parseNestedJson stack v = Normal r ->
  Forall (fun i => exists e, JSON.parse i = Throw e) after ->
  run message stack (before ++ input :: after) st
  = {| parsed := r;
       error := match after with [] => [] | _ :: _ => message SyntaxError end |}.
Proof.
  intros Hv Hr Hafter.
  rewrite App_more.run_app.
  change (run message stack (input :: after) ?s)
    with (run message stack after (handleParse message stack input s)).
  assert (Hstep : forall s, handleParse message stack input s
                            = {| parsed := r; error := [] |}).
  { intros s. unfold handleParse. rewrite Hv. simpl. by rewrite Hr. }
  rewrite Hstep. destruct after as [|i after]; [done|].
  by rewrite App_more.run_failures.
Qed.

Lemma last_resolved_input_wins_witness :
  run engine_message 2 [js "{'a':"; js "['1']"; js "{'a':1,"]
    {| parsed := JNull; error := [] |}
  = {| parsed := JArray [JString (js "1")];
       error := js "Unexpected token in JSON" |}.
Proof.
  assert (Hv : JSON.parse (js "['1']") = Normal (JArray [JString (js "1")]))
    by (vm_compute; reflexivity).
  assert (Hr : parseNestedJson 2 (JArray [JString (js "1")])
               = Normal (JArray [JString (js "1")])) by (vm_compute; reflexivity).
  assert (Hafter : Forall (fun i => exists e, JSON.parse i = Throw e) [js "{'a':1,"]).
  { constructor; [|constructor]. exists SyntaxError. vm_compute. reflexivity. }
  exact (last_resolved_input_wins engine_message 2 [js "{'a':"] [js "{'a':1,"]
           (js "['1']") _ _ {| parsed := JNull; error := [] |} Hv Hr Hafter).
Defined.

(** X9: the empty input.  A text that is empty or white space only is not
    JSON: as an input it leaves the resolved value and sets the error, and
    as a string leaf it is left unchanged by the resolver. *)
Theorem blank_input_is_failure (s : list N) :
  forallb JSON.is_ws s = true ->
  JSON.parse s = Throw SyntaxError /\
  (forall message stack st,
     handleParse message stack s st
     = {| parsed := parsed st; error := message SyntaxError |}) /\
  (forall stack, parseNestedJson (S stack) (JString s) = Normal (JString s)).
Proof.
  intros Hs. pose proof (App_more.blank_not_JSON s Hs) as Hp.
  split; [done|]. split.
  - intros. unfold handleParse. by rewrite Hp.
  - intros. simpl. by rewrite Hp.
Qed.

Lemma blank_input_is_failure_witness :
  handleParse engine_message 40 [] {| parsed := john_resolved; error := [] |}
  = {| parsed := john_resolved; error := js "Unexpected token in JSON" |}.
Proof.
  assert (H : forallb JSON.is_ws [] = true) by reflexivity.
  exact (proj1 (proj2 (blank_input_is_failure [] H)) engine_message 40%nat
           {| parsed := john_resolved; error := [] |}).
Defined.



(** ** The resize handle *)

(** X11: the split ratio.  Without the panels the move changes nothing.
    With them, the ratio set is [NaN] exactly when the scaled quotient is
    (a width and an offset of zero give it); otherwise it lies between 20
    and 80, and it is the scaled quotient itself when that is strictly
    between 20 and 80. *)
Theorem split_ratio_clamped :
  (forall clientX splitRatio, handleMouseMove None clientX splitRatio = splitRatio) /\
  (forall rect clientX splitRatio,
     let v := SFmul 53 1024
                (SFdiv 53 1024 (SFsub 53 1024 clientX (rect_left rect)) (rect_width rect))
                (Number_of_Z 100) in
     let r := handleMouseMove (Some rect) clientX splitRatio in
     (v = S754_nan <-> r = S754_nan) /\
     (v <> S754_nan ->
        SFleb (Number_of_Z 20) r = true /\ SFleb r (Number_of_Z 80) = true) /\
     (SFltb (Number_of_Z 20) v = true -> SFltb v (Number_of_Z 80) = true -> r = v)).
Proof.
  split; [done|].
  intros rect clientX splitRatio v r.
  assert (Hr : r = Math_min (Number_of_Z 80) (Math_max (Number_of_Z 20) v)) by done.
  clearbody r v. clear rect clientX splitRatio.
  pose proof (Resize_facts.clamp_cases v) as Hc. cbv zeta in Hc. rewrite <- Hr in Hc. clear Hr.
  pose proof (Resize_facts.SFcompare_antisym (Number_of_Z 80) v) as Hanti.
  assert (H20 : SFcompare (Number_of_Z 20) (Number_of_Z 20) = Some Eq) by reflexivity.
  assert (H28 : SFcompare (Number_of_Z 20) (Number_of_Z 80) = Some Lt) by reflexivity.
  assert (H80 : SFcompare (Number_of_Z 80) (Number_of_Z 80) = Some Eq) by reflexivity.
  assert (Hlo : Number_of_Z 20 <> S754_nan) by discriminate.
  assert (Hhi : Number_of_Z 80 <> S754_nan) by discriminate.
  assert (Hnan : v = S754_nan -> SFcompare (Number_of_Z 20) v = None)
    by (intros ->; reflexivity).
  unfold SFleb, SFltb.
  destruct (SFcompare (Number_of_Z 20) v) as [[]|] eqn:Elo; cbv beta iota in Hc.
  - subst r. rewrite H20, H28. split; [split; [intros Hv|]|split]; try done.
    by specialize (Hnan Hv).
  - destruct (SFcompare (Number_of_Z 80) v) as [[]|] eqn:Ehi; cbv beta iota in Hc;
      try subst r.
    + rewrite H28, H80. split; [split; [intros Hv|]|split]; try done.
      * by specialize (Hnan Hv).
      * rewrite Hanti. done.
    + rewrite H28, H80. split; [split; [intros Hv|]|split]; try done.
      * by specialize (Hnan Hv).
      * rewrite Hanti. done.
    + rewrite Elo, Hanti. split; [split; [intros Hv|]|split]; try done.
    + apply Resize_facts.SFcompare_finite_None in Ehi. subst v. discriminate Elo.
  - subst r. rewrite H20, H28. split; [split; [intros Hv|]|split]; try done.
    by specialize (Hnan Hv).
  - destruct Hc as [-> ->]. split; [split|split]; try done.
Qed.

Lemma split_ratio_clamped_witness :
  handleMouseMove
    (Some {| rect_left := Number_of_Z 10; rect_width := Number_of_Z 200 |})
    (Number_of_Z 110) (Number_of_Z 20)
  = Number_of_Z 50.
Proof.
  rewrite (proj2 (proj2 (proj2 split_ratio_clamped
             {| rect_left := Number_of_Z 10; rect_width := Number_of_Z 200 |}
             (Number_of_Z 110) (Number_of_Z 20)))).
  - vm_compute. reflexivity.
  - vm_compute. reflexivity.
  - vm_compute. reflexivity.
Defined.
